(** * xfeature: the hierarchical feature-flag registry of [@xfeature/core]

    A shallow embedding of [packages/core/src/index.ts] (and, for the
    resolution function, of the older copy kept in [src/index.ts]) together
    with the properties of its registry, resolution walk and bulk loader.

    Modelling conventions.
    - A JavaScript string is a [string]: a sequence of 8-bit code units.
    - A feature object created by [defineFeature] lives in a store of cells
      indexed by its reference; the cell carries the symbol-keyed fields
      [symFeatureName], [symFeatureLeafName] and [symFeatureEnabled].  The
      enumerable string-keyed properties of the object (its subfeatures) are
      fixed by [defineFeature], which spreads them into the object literal
      and hides those under the key of a method it installs, and are never
      assigned afterwards, so a reference carries them along:
      [Feature ref props].
      Two occurrences of the same [ref] are the same JavaScript object.
    - The value produced by [$asDisabled()] is a fresh two-field object that
      is never mutated; it is the immutable value [VMarker name].
    - [featureRegistry] is a JavaScript [Map]: an association list in
      insertion order, with [Map.prototype.set] replacing in place. *)

From Stdlib Require Import Ascii String.
From stdpp Require Import base tactics option list strings.

Local Open Scope string_scope.
Local Open Scope list_scope.

(** ** Strings: the fragment of the JavaScript string API the code uses *)

Module Js.

(** [s.split(".")]: the pieces of [s] between the occurrences of [sep];
    never empty, [[""]] for the empty string. *)
Fixpoint split (sep : ascii) (s : string) : list string :=
  match s with
  | EmptyString => [ EmptyString ]
  | String c s' =>
      if Ascii.eqb c sep then EmptyString :: split sep s'
      else match split sep s' with
           | x :: r => String c x :: r
           | [] => [ String c EmptyString ]
           end
  end.

(** [parts.join(sep)] *)
Definition join (sep : string) (parts : list string) : string :=
  String.concat sep parts.

(** [s.includes(c)] for a one-character needle *)
Fixpoint includes (c : ascii) (s : string) : bool :=
  match s with
  | EmptyString => false
  | String d s' => Ascii.eqb d c || includes c s'
  end.

(** [s.startsWith(c)] for a one-character needle *)
Definition startsWith (c : ascii) (s : string) : bool :=
  match s with
  | String d _ => Ascii.eqb d c
  | EmptyString => false
  end.

(** [s.slice(1)] *)
Definition slice1 (s : string) : string :=
  match s with
  | String _ s' => s'
  | EmptyString => EmptyString
  end.

(** White space and line terminators among the 8-bit code units:
    TAB, LF, VT, FF, CR, SPACE and NBSP. *)
Definition isWhiteSpace (c : ascii) : bool :=
  let n := nat_of_ascii c in
  (Nat.leb 9 n && Nat.leb n 13) || Nat.eqb n 32 || Nat.eqb n 160.

Fixpoint trimStart (s : string) : string :=
  match s with
  | String c s' => if isWhiteSpace c then trimStart s' else s
  | EmptyString => EmptyString
  end.

(** Trailing white space: a character is dropped when it is white space
    and everything after it has been dropped. *)
Fixpoint trimEnd (s : string) : string :=
  match s with
  | String c s' =>
      match trimEnd s' with
      | EmptyString => if isWhiteSpace c then EmptyString else String c EmptyString
      | t => String c t
      end
  | EmptyString => EmptyString
  end.

(** [s.trim()] *)
Definition trim (s : string) : string := trimEnd (trimStart s).

(** The separator class of the regular expression [[,\n ]+]. *)
Definition isSeparator (c : ascii) : bool :=
  let n := nat_of_ascii c in
  Nat.eqb n 44 || Nat.eqb n 10 || Nat.eqb n 32.

(** [s.split(/[,\n ]+/)]: pieces between maximal runs of separators.
    [inRun] records that the previous character belonged to a run. *)
Fixpoint splitRuns (inRun : bool) (s : string) : list string :=
  match s with
  | EmptyString => [ EmptyString ]
  | String c s' =>
      if isSeparator c then
        (if inRun then splitRuns true s' else EmptyString :: splitRuns true s')
      else match splitRuns false s' with
           | x :: r => String c x :: r
           | [] => [ String c EmptyString ]
           end
  end.

(** Truthiness of a string: [!!s] *)
Definition truthy (s : string) : bool :=
  match s with EmptyString => false | _ => true end.

End Js.

(** ** Data model *)

Abbreviation addr := nat (only parsing).

(** The symbol-keyed fields of a feature object. *)
Record cell := Cell {
  symFeatureName : string;
  symFeatureLeafName : string;
  symFeatureEnabled : option bool
}.

Abbreviation heap := (list cell) (only parsing).

(** A reference to a feature object with its enumerable string-keyed
    properties in [for ... in] order; a property holding something that
    fails [isFeatureObject] is [None]. *)
#[local] Unset Elimination Schemes.
Inductive FeatureObject :=
| Feature (ref : addr) (props : list (string * option FeatureObject)).
#[local] Set Elimination Schemes.

Abbreviation Props := (list (string * option FeatureObject)) (only parsing).

Definition ref_of (o : FeatureObject) : addr :=
  match o with Feature a _ => a end.

(** Values that flow through [getFeature] and [loadFeatures]. *)
Inductive value :=
| VFeature (a : addr)        (* an object made by [defineFeature] *)
| VMarker (name : string)    (* { [symFeatureDisableFlag]: true, [symFeatureName]: name } *)
| VNull                      (* null *)
| VOther.                    (* any other value without [symFeatureName] *)

Definition isFeatureObject (v : value) : bool :=
  match v with
  | VFeature _ | VMarker _ => true
  | VNull | VOther => false
  end.

(** The registry [Map], in insertion order. *)
Abbreviation registry := (list (string * addr)) (only parsing).

Record state := State {
  objects : heap;
  featureRegistry : registry
}.

(** A call either returns or throws [new Error(msg)]. *)
Inductive outcome :=
| Returned
| Thrown (msg : string).

(** ** The store *)

Definition nameOf (h : heap) (a : addr) : string :=
  match h !! a with Some c => symFeatureName c | None => "" end.

Definition leafNameOf (h : heap) (a : addr) : string :=
  match h !! a with Some c => symFeatureLeafName c | None => "" end.

Definition enabledOf (h : heap) (a : addr) : option bool :=
  match h !! a with Some c => symFeatureEnabled c | None => None end.

(** [obj[symFeatureName] = n] *)
Definition setName (a : addr) (n : string) (h : heap) : heap :=
  alter (fun c => Cell n (symFeatureLeafName c) (symFeatureEnabled c)) a h.

(** [obj[symFeatureEnabled] = b], and [delete obj[symFeatureEnabled]] for
    [None] *)
Definition setEnabled (a : addr) (e : option bool) (h : heap) : heap :=
  alter (fun c => Cell (symFeatureName c) (symFeatureLeafName c) e) a h.

(** ** The registry [Map] *)

Fixpoint reg_get (r : registry) (k : string) : option addr :=
  match r with
  | [] => None
  | (k', v) :: r' => if String.eqb k' k then Some v else reg_get r' k
  end.

Fixpoint reg_set (k : string) (v : addr) (r : registry) : registry :=
  match r with
  | [] => [ (k, v) ]
  | (k', v') :: r' =>
      if String.eqb k' k then (k', v) :: r' else (k', v') :: reg_set k v r'
  end.

Definition reg_keys (r : registry) : list string := map fst r.
Definition reg_values (r : registry) : list addr := map snd r.

(** ** Resolution: [isFeatureEnabled] *)

(** [featureName.split(".").map((_, index, parts) =>
      parts.slice(0, index + 1).join("."))] *)
Definition parentsOf (featureName : string) : list string :=
  let parts := Js.split "." featureName in
  imap (fun index _ => Js.join "." (take (S index) parts)) parts.

(** The [while (parents.length > 0)] loop.  [stack] is the array seen from
    its end, the side [parents.pop()] takes from.  [None] means the loop ran
    to the end without reaching its [return]. *)
Fixpoint walkParents (s : state) (stack : list string) : option bool :=
  match stack with
  | [] => None
  | parentName :: rest =>
      if negb (Js.truthy parentName) then walkParents s rest
      else match reg_get (featureRegistry s) parentName with
           | None => walkParents s rest
           | Some parent =>
               match enabledOf (objects s) parent with
               | Some b => Some b
               | None => walkParents s rest
               end
           end
  end.

Definition isFeatureEnabled (s : state) (feature : addr) : bool :=
  let featureName := nameOf (objects s) feature in
  match enabledOf (objects s) feature with
  | None =>
      match walkParents s (rev (parentsOf featureName)) with
      | Some b => b
      | None => true
      end
  | Some b => b
  end.

(** ** The methods installed by [defineFeature] *)

Definition name_ (a : addr) (s : state) : string := nameOf (objects s) a.

Definition asDisabled (a : addr) (s : state) : value :=
  VMarker (nameOf (objects s) a).

Definition enable (a : addr) (s : state) : state :=
  State (setEnabled a (Some true) (objects s)) (featureRegistry s).

Definition disable (a : addr) (s : state) : state :=
  State (setEnabled a (Some false) (objects s)) (featureRegistry s).

Definition isEnabled (a : addr) (s : state) : bool * state :=
  (isFeatureEnabled s a, s).

Definition isDisabled (a : addr) (s : state) : bool * state :=
  (negb (isFeatureEnabled s a), s).

(** ** The tree builder: [prefixFeatureName] and [defineFeature] *)

Fixpoint prefixOne (feature : string) (subfeature : FeatureObject) (h : heap)
  {struct subfeature} : heap :=
  match subfeature with
  | Feature a props =>
      let prefixedFeatureName := feature +:+ "." +:+ leafNameOf h a in
      let h1 := setName a prefixedFeatureName h in
      fold_left
        (fun h kv =>
           match kv with
           | (_, Some sub) => prefixOne prefixedFeatureName sub h
           | (_, None) => h
           end)
        props h1
  end.

Definition prefixStep (feature : string) (h : heap)
  (kv : string * option FeatureObject) : heap :=
  match kv with
  | (_, Some sub) => prefixOne feature sub h
  | (_, None) => h
  end.

Definition prefixFeatureName (feature : string) (subfeatures : Props)
  (h : heap) : heap :=
  fold_left (prefixStep feature) subfeatures h.

(** The keys under which [defineFeature] installs its methods with
    [Object.defineProperty(featureObject, key, { enumerable: false, value })]. *)
Definition methodNames : list string :=
  [ "$name"; "$asDisabled"; "$enable"; "$disable"; "$isEnabled"; "$isDisabled" ].

(** The enumerable string-keyed properties of the new object: those spread
    from [subfeatures], except the ones a method then replaces and hides. *)
Definition ownProps (subfeatures : Props) : Props :=
  filter (fun kv => fst kv ∉ methodNames) subfeatures.

(** [defineFeature(feature, subfeatures)]; an omitted [subfeatures] is the
    empty list.  The new object takes the next free reference.
    [prefixFeatureName] runs over the record that was passed, so it also
    renames a subfeature given under a method's key, which the new object
    does not keep. *)
Definition defineFeature (feature : string) (subfeatures : Props) (s : state)
  : FeatureObject * state :=
  let a := length (objects s) in
  let h := objects s ++ [ Cell feature feature None ] in
  (Feature a (ownProps subfeatures),
   State (prefixFeatureName feature subfeatures h) (featureRegistry s)).

(** ** [loadFeatures] *)

Definition loadOne (s : state) (feature : value) : state :=
  match feature with
  | VNull | VOther => s
  | VMarker n =>
      match reg_get (featureRegistry s) n with
      | Some baseFeature =>
          State (setEnabled baseFeature (Some false) (objects s))
                (featureRegistry s)
      | None => s
      end
  | VFeature a =>
      State (setEnabled a (Some true) (objects s)) (featureRegistry s)
  end.

Definition clearEnabled (s : state) : state :=
  State (fold_left (fun h a => setEnabled a None h)
                   (reg_values (featureRegistry s)) (objects s))
        (featureRegistry s).

Definition loadFeatures (features : list value) (override : bool) (s : state)
  : state :=
  let s0 := if override then clearEnabled s else s in
  fold_left loadOne features s0.

(** ** [getFeature] *)

Definition getFeature (feature : string) (s : state) : value :=
  if Js.startsWith "-" feature then
    match reg_get (featureRegistry s) (Js.slice1 feature) with
    | Some featureObject => asDisabled featureObject s
    | None => VNull
    end
  else
    match reg_get (featureRegistry s) feature with
    | Some featureObject => VFeature featureObject
    | None => VNull
    end.

(** ** [loadFeaturesFromString] *)

Definition featureNamesOf (features : string) : list string :=
  filter (fun n => Is_true (Js.truthy n))
         (map Js.trim (Js.splitRuns false features)).

Definition notFoundMessage (featureName : string) (s : state) : string :=
  "Feature " +:+ featureName +:+ " not found. Available features: "
  +:+ Js.join ", " (reg_keys (featureRegistry s)).

(** The second [map]: resolve the names in order; the callback throws at
    the first name [getFeature] does not find. *)
Fixpoint resolveNames (featureNames : list string) (s : state)
  : string + list value :=
  match featureNames with
  | [] => inr []
  | featureName :: rest =>
      if String.eqb featureName "*" || String.eqb featureName "-*" then
        resolveNames rest s
      else
        match getFeature featureName s with
        | VNull => inl (notFoundMessage featureName s)
        | featureObject =>
            match resolveNames rest s with
            | inl msg => inl msg
            | inr l => inr (featureObject :: l)
            end
        end
  end.

(** The directives of the wildcard pass. *)
Definition topLevelDisabled (s : state) : list value :=
  map (fun feature => asDisabled feature s)
      (filter (fun feature => Is_true (negb (Js.includes "." (name_ feature s))))
              (reg_values (featureRegistry s))).

Definition disableAll (s : state) : state :=
  loadFeatures (topLevelDisabled s) false s.

Definition loadFeaturesFromString (features : string) (s : state)
  : outcome * state :=
  let featureNames := featureNamesOf features in
  let disablesAllFeatures := existsb (String.eqb "-*") featureNames in
  let s1 := if disablesAllFeatures then disableAll s else s in
  match resolveNames featureNames s1 with
  | inl msg => (Thrown msg, s1)
  | inr featuresToEnable => (Returned, loadFeatures featuresToEnable false s1)
  end.

(** ** [registerFeatures] *)

Fixpoint registerOne (h : heap) (feature : FeatureObject) (r : registry)
  {struct feature} : registry :=
  match feature with
  | Feature a props =>
      fold_left
        (fun r kv =>
           match kv with
           | (_, Some sub) => registerOne h sub r
           | (_, None) => r
           end)
        props (reg_set (nameOf h a) a r)
  end.

Definition registerStep (h : heap) (r : registry)
  (kv : string * option FeatureObject) : registry :=
  match kv with
  | (_, Some sub) => registerOne h sub r
  | (_, None) => r
  end.

(** The inner function [register]. *)
Definition register (h : heap) (features : Props) (r : registry) : registry :=
  fold_left (registerStep h) features r.

(** [options.parseEnv] *)
Inductive ParseEnv :=
| PEUndefined
| PEBool (b : bool)
| PEString (variable : string).

Record Options := {
  override : bool;          (* an absent [override] is falsy *)
  parseEnv : ParseEnv
}.

(** The default value of the [options] parameter. *)
Definition defaultOptions : Options :=
  {| override := false; parseEnv := PEBool true |}.

(** [process.env] *)
Definition Env := string -> option string.

(** [options.parseEnv ?? true], as a condition *)
Definition parsesEnv (p : ParseEnv) : bool :=
  match p with
  | PEUndefined => true
  | PEBool b => b
  | PEString v => Js.truthy v
  end.

(** The string handed to [loadFeaturesFromString]. *)
Definition envFeatures (p : ParseEnv) (env : Env) : string :=
  match p with
  | PEString v => default "" (env v)
  | _ => default "" (env "FEATURES")
  end.

Definition registerFeatures (features : Props) (options : Options) (env : Env)
  (s : state) : outcome * state :=
  let r0 := if override options then [] else featureRegistry s in
  let s1 := State (objects s) (register (objects s) features r0) in
  if parsesEnv (parseEnv options) then
    loadFeaturesFromString (envFeatures (parseEnv options) env) s1
  else (Returned, s1).

(** ** The older copy: [isFeatureEnabled] of [src/index.ts] *)

Module Legacy.

(** The loop is the one of [walkParents], with [feature[symFeatureEnabled] =
    parent[symFeatureEnabled]; break] where the newer copy returns; after
    the loop comes [feature[symFeatureEnabled] ??= true]. *)
Definition isFeatureEnabled (feature : addr) (s : state) : bool * state :=
  let featureName := nameOf (objects s) feature in
  match enabledOf (objects s) feature with
  | None =>
      let h1 :=
        match walkParents s (rev (parentsOf featureName)) with
        | Some b => setEnabled feature (Some b) (objects s)
        | None => objects s
        end in
      let h2 :=
        match enabledOf h1 feature with
        | None => setEnabled feature (Some true) h1
        | Some _ => h1
        end in
      (default true (enabledOf h2 feature), State h2 (featureRegistry s))
  | Some b => (b, s)
  end.

(** The [map] callback of the older [loadFeaturesFromString], over the
    pieces of [features.split(",")]: an all-blank piece is dropped, any other
    is resolved with [getFeature], and the callback throws at the first one
    that is not found. *)
Fixpoint resolvePieces (pieces : list string) (s : state)
  : string + list value :=
  match pieces with
  | [] => inr []
  | feature :: rest =>
      let featureName := Js.trim feature in
      if negb (Js.truthy featureName) then resolvePieces rest s
      else
        match getFeature featureName s with
        | VNull => inl (notFoundMessage featureName s)
        | featureObject =>
            match resolvePieces rest s with
            | inl msg => inl msg
            | inr l => inr (featureObject :: l)
            end
        end
  end.

Definition loadFeaturesFromString (features : string) (s : state)
  : outcome * state :=
  match resolvePieces (Js.split "," features) s with
  | inl msg => (Thrown msg, s)
  | inr featuresToEnable => (Returned, loadFeatures featuresToEnable false s)
  end.

End Legacy.

(** * Specification vocabulary and scenarios *)

(** [p] is a prefix of [n] at a dot boundary: [n] itself, or what precedes
    one of the dots of [n]. *)
Definition strictDotPrefix (p n : string) : Prop :=
  exists rest, n = p +:+ "." +:+ rest.

Definition dotPrefix (p n : string) : Prop :=
  p = n \/ strictDotPrefix p n.

(** The explicit state the walk reads at a name: that of the object the
    registry holds under it. *)
Definition explicitAt (s : state) (p : string) : option bool :=
  match reg_get (featureRegistry s) p with
  | Some parent => enabledOf (objects s) parent
  | None => None
  end.

(** The resolution rule in the words of the specification: own explicit
    state first, else the nearest strict ancestor prefix that is registered
    with an explicit state. *)
Definition precedence_as_stated : Prop :=
  forall (s : state) (a : addr),
    (forall b, enabledOf (objects s) a = Some b -> isFeatureEnabled s a = b) /\
    (enabledOf (objects s) a = None ->
     forall p b,
       strictDotPrefix p (nameOf (objects s) a) ->
       explicitAt s p = Some b ->
       (forall q, strictDotPrefix q (nameOf (objects s) a) ->
                  String.length p < String.length q ->
                  explicitAt s q = None) ->
       isFeatureEnabled s a = b).

(** The default in the words of the specification. *)
Definition default_as_stated : Prop :=
  forall (s : state) (a : addr),
    enabledOf (objects s) a = None ->
    (forall p, strictDotPrefix p (nameOf (objects s) a) ->
               explicitAt s p = None) ->
    isFeatureEnabled s a = true.

Definition emptyState : state := State [] [].

Definition noEnv : Env := fun _ => None.

Definition manual : Options := {| override := false; parseEnv := PEBool false |}.

(** A declaration [a { b }], registered; and a second declaration of the
    same shape registered after it, which replaces the first in the registry
    and is then configured.  The objects of the first declaration have
    references 0 ([a.b]) and 1 ([a]), those of the second 2 and 3. *)
Definition declared : state :=
  let '(b, s) := defineFeature "b" [] emptyState in
  let '(a, s) := defineFeature "a" [ ("B", Some b) ] s in
  snd (registerFeatures [ ("A", Some a) ] manual noEnv s).

Definition redeclared : state :=
  let '(b', s) := defineFeature "b" [] declared in
  let '(a', s) := defineFeature "a" [ ("B", Some b') ] s in
  let '(_, s) := registerFeatures [ ("A", Some a') ] manual noEnv s in
  disable (ref_of b') (enable (ref_of a') s).

(** A root flag declared twice; only the second object (reference 1) is
    registered, and it is disabled. *)
Definition shadowedRoot : state :=
  let '(_, s) := defineFeature "one" [] emptyState in
  let '(one', s) := defineFeature "one" [] s in
  let '(_, s) := registerFeatures [ ("One", Some one') ] manual noEnv s in
  disable (ref_of one') s.

(** A root flag with the empty name and its subfeature [.x] (reference 0),
    registered; the root (reference 1) is disabled. *)
Definition emptyNamedRoot : state :=
  let '(x, s) := defineFeature "x" [] emptyState in
  let '(root, s) := defineFeature "" [ ("X", Some x) ] s in
  let '(_, s) := registerFeatures [ ("Root", Some root) ] manual noEnv s in
  disable (ref_of root) s.

(** A directive [loadFeatures] passes over. *)
Definition skipped (r : registry) (d : value) : Prop :=
  isFeatureObject d = false \/
  exists n, d = VMarker n /\ reg_get r n = None.


(** A root-level flag: its qualified name contains no dot. *)
Definition rootLevel (h : heap) (a : addr) : Prop :=
  Js.includes "." (nameOf h a) = false.

(** The registry invariant of states built through the library: keys are
    unique, every registered reference denotes an object of the store, and
    an object that still carries a dot-free name is filed under that name
    (a name only ever changes into [parent.leaf]). *)
Definition registry_ok (s : state) : Prop :=
  NoDup (reg_keys (featureRegistry s)) /\
  forall k a, (k, a) ∈ featureRegistry s ->
    a < length (objects s) /\ (rootLevel (objects s) a -> k = nameOf (objects s) a).

(** A token that is neither wildcard and that [getFeature] does not find. *)
Definition unknownName (s : state) (t : string) : Prop :=
  t <> "*" /\ t <> "-*" /\ getFeature t s = VNull.

(** The registered objects the wildcard pass selects. *)
Definition rootRefs (s : state) : list addr :=
  filter (fun a => Is_true (negb (Js.includes "." (nameOf (objects s) a))))
         (reg_values (featureRegistry s)).

(** The references of the objects of a tree, and of the trees under a
    record of subfeatures. *)
Fixpoint refsOf (o : FeatureObject) : list addr :=
  match o with
  | Feature a props =>
      a :: flat_map (fun kv => match kv with
                               | (_, Some sub) => refsOf sub
                               | (_, None) => []
                               end) props
  end.

Definition refsOfProps (props : Props) : list addr :=
  flat_map (fun kv => match kv with
                      | (_, Some sub) => refsOf sub
                      | (_, None) => []
                      end) props.

(** The naming invariant below an object: every subfeature is named
    [parent.leaf], and so on downwards. *)
#[local] Unset Elimination Schemes.
Inductive wellNamed (h : heap) : FeatureObject -> Prop :=
| WellNamed a props :
    (forall k sub, (k, Some sub) ∈ props ->
       nameOf h (ref_of sub) = nameOf h a +:+ "." +:+ leafNameOf h (ref_of sub)
       /\ wellNamed h sub) ->
    wellNamed h (Feature a props).
#[local] Set Elimination Schemes.

(** The builder's contract in the words of the specification: the new node
    is well named, and so is every tree that was well named before. *)
Definition builder_as_stated : Prop :=
  forall (s : state) (feature : string) (subfeatures : Props),
    (forall a, a ∈ refsOfProps subfeatures -> a < length (objects s)) ->
    wellNamed (objects (snd (defineFeature feature subfeatures s)))
              (fst (defineFeature feature subfeatures s)) /\
    (forall earlier,
       (forall a, a ∈ refsOf earlier -> a < length (objects s)) ->
       wellNamed (objects s) earlier ->
       wellNamed (objects (snd (defineFeature feature subfeatures s))) earlier).

(** One leaf attached under two parents, [p1] (reference 1) and then [p2]
    (reference 2). *)
Definition sharedLeaf : FeatureObject * FeatureObject * state :=
  let '(leaf, s) := defineFeature "s" [] emptyState in
  let '(p1, s) := defineFeature "p1" [ ("S", Some leaf) ] s in
  (leaf, p1, s).

(** What renaming never touches. *)
Definition sameButNames (h h' : heap) : Prop :=
  length h' = length h /\
  forall i, leafNameOf h' i = leafNameOf h i /\ enabledOf h' i = enabledOf h i.

(** Two states with the same registry and the same names: they may differ
    in explicit states only (and in what lies outside the names). *)
Definition sameNames (s s' : state) : Prop :=
  featureRegistry s' = featureRegistry s /\
  forall i, nameOf (objects s') i = nameOf (objects s) i.

(** The assignment to [symFeatureEnabled] a directive stands for. *)
Definition writeOf (r : registry) (d : value) : option (addr * bool) :=
  match d with
  | VFeature a => Some (a, true)
  | VMarker n => match reg_get r n with
                 | Some baseFeature => Some (baseFeature, false)
                 | None => None
                 end
  | VNull | VOther => None
  end.

Definition applyWrites (ws : list (addr * bool)) (h : heap) : heap :=
  fold_left (fun h w => setEnabled (fst w) (Some (snd w)) h) ws h.

(** The last value a sequence of assignments gives to an object. *)
Fixpoint lastWrite (ws : list (addr * bool)) (i : addr) : option bool :=
  match ws with
  | [] => None
  | w :: ws' =>
      match lastWrite ws' i with
      | Some b => Some b
      | None => if decide (fst w = i) then Some (snd w) else None
      end
  end.

(** The directives a configuration string amounts to, and how the call
    ends. *)
Definition directivesOf (text : string) (s : state) : list value :=
  (if existsb (String.eqb "-*") (featureNamesOf text)
   then topLevelDisabled s else [])
  ++ match resolveNames (featureNamesOf text) s with
     | inr l => l
     | inl _ => []
     end.

Definition outcomeOf (text : string) (s : state) : outcome :=
  match resolveNames (featureNamesOf text) s with
  | inl msg => Thrown msg
  | inr _ => Returned
  end.

(** Re-registration in the words of the specification: after any first
    registration of a forest, registering it again with [override] gives
    the registry and the effective states of a single registration. *)
Definition reregistration_as_stated : Prop :=
  forall (s : state) (forest : Props) (first second : Options) (env : Env),
    override second = true ->
    let once := snd (registerFeatures forest second env s) in
    let twice :=
      snd (registerFeatures forest second env
             (snd (registerFeatures forest first env s))) in
    featureRegistry twice = featureRegistry once /\
    forall a, isFeatureEnabled twice a = isFeatureEnabled once a.

(** One root flag [one] (reference 0), not yet registered, and an
    environment that disables it. *)
Definition oneFlag : FeatureObject * state := defineFeature "one" [] emptyState.

Definition envDisablesOne : Env :=
  fun variable => if String.eqb variable "FEATURES" then Some "-one" else None.

Definition overriding (p : ParseEnv) : Options :=
  {| override := true; parseEnv := p |}.

(** The declaration [a { b }] registered and [a] explicitly enabled, then
    a root flag [one] (reference 2) defined and not yet registered. *)
Definition declaredThenOne : state :=
  snd (defineFeature "one" [] (enable 1 declared)).

(** A flag [x] (reference 0) handed to [defineFeature "p"] under the key
    of a method; [p] takes reference 1. *)
Definition methodKeyed : FeatureObject * state :=
  let '(x, s) := defineFeature "x" [] emptyState in
  defineFeature "p" [ ("$name", Some x) ] s.

(** The states a program reaches through the library: objects come from
    [defineFeature], whose subfeatures are objects that exist, and explicit
    states from the methods and the loaders. *)
Inductive reachable : state -> Prop :=
| reach_empty : reachable emptyState
| reach_define s feature subfeatures :
    reachable s ->
    (forall a, a ∈ refsOfProps subfeatures -> a < length (objects s)) ->
    reachable (snd (defineFeature feature subfeatures s))
| reach_register s forest options env :
    reachable s ->
    (forall a, a ∈ refsOfProps forest -> a < length (objects s)) ->
    reachable (snd (registerFeatures forest options env s))
| reach_loadString s text :
    reachable s -> reachable (snd (loadFeaturesFromString text s))
| reach_load s features ov :
    reachable s -> reachable (loadFeatures features ov s)
| reach_enable s a : reachable s -> reachable (enable a s)
| reach_disable s a : reachable s -> reachable (disable a s).

(** The declaration of [tests.spec.ts], built in a given state and
    registered with the default options while [FEATURES] holds [features].
    Starting from the empty store the references are 0 [one.one], 1 [one],
    2 [two.one], 3 [two.two.one], 4 [two.two.two], 5 [two.two.three],
    6 [two.two] and 7 [two]. *)
Definition makeTestFeatures (features : string) (s : state) : outcome * state :=
  let '(one_one, s) := defineFeature "one" [] s in
  let '(one, s) := defineFeature "one" [ ("One", Some one_one) ] s in
  let '(two_one, s) := defineFeature "one" [] s in
  let '(two_two_one, s) := defineFeature "one" [] s in
  let '(two_two_two, s) := defineFeature "two" [] s in
  let '(two_two_three, s) := defineFeature "three" [] s in
  let '(two_two, s) :=
    defineFeature "two" [ ("One", Some two_two_one); ("Two", Some two_two_two);
                          ("Three", Some two_two_three) ] s in
  let '(two, s) :=
    defineFeature "two" [ ("One", Some two_one); ("Two", Some two_two) ] s in
  registerFeatures [ ("One", Some one); ("Two", Some two) ] defaultOptions
    (fun variable => if String.eqb variable "FEATURES" then Some features else None)
    s.

Definition fresh : state := snd (makeTestFeatures "" emptyState).

(** The effective states of a list of objects. *)
Definition statesOf (s : state) (refs : list addr) : list bool :=
  map (isFeatureEnabled s) refs.

(** ** Vocabulary for the further properties *)

(** [printFeatureRegistry]: the array it hands to [inspect], one
    [{ name, enabled }] per registry entry in insertion order. *)
Definition registryEntries (s : state) : list (string * bool) :=
  map (fun kv => (fst kv, isFeatureEnabled s (snd kv))) (featureRegistry s).

(** Every character of a string satisfies a test. *)
Fixpoint everyChar (P : ascii -> bool) (s : string) : bool :=
  match s with
  | EmptyString => true
  | String c s' => P c && everyChar P s'
  end.

Definition notSeparator (c : ascii) : bool := negb (Js.isSeparator c).

Definition blank (c : ascii) : bool := Js.isSeparator c || Js.isWhiteSpace c.

(** The names the older loader resolves: the non-blank trimmed pieces. *)
Definition legacyNamesOf (features : string) : list string :=
  filter (fun n => Is_true (Js.truthy n)) (map Js.trim (Js.split "," features)).

(** Every registry entry is filed under the current name of its object. *)
Definition keyed (s : state) : Prop :=
  forall k a, (k, a) ∈ featureRegistry s -> k = nameOf (objects s) a.

(** In the store [h], the name of [target] resolves in [r] to an object of
    [S] that carries that name. *)
Definition filed (h : heap) (S : addr -> Prop) (target : addr) (r : registry)
  : Prop :=
  exists b, S b /\ reg_get r (nameOf h target) = Some b /\
            nameOf h b = nameOf h target.

(** Neither a space nor a line feed. *)
Definition noSpaceOrLineFeed (c : ascii) : bool :=
  negb (Ascii.eqb c " ") && negb (Ascii.eqb c "010").

(** The trimmed, non-empty ones among some pieces. *)
Definition namesAmong (pieces : list string) : list string :=
  filter (fun n => Is_true (Js.truthy n)) (map Js.trim pieces).

(** * Properties *)

(** ** Dotted names and their prefixes *)

Section DottedNames.

Lemma length_append (s1 s2 : string) :
  String.length (s1 +:+ s2) = String.length s1 + String.length s2.
Proof. induction s1 as [|c s1 IH]; simpl; [done|]. by rewrite IH. Qed.

Lemma split_nonempty sep s : Js.split sep s <> [].
Proof.
  destruct s as [|c s]; simpl; [done|].
  destruct (Ascii.eqb c sep); [done|].
  by destruct (Js.split sep s).
Qed.

Lemma join_cons_cons sep x y l :
  Js.join sep (x :: y :: l) = x +:+ sep +:+ Js.join sep (y :: l).
Proof. reflexivity. Qed.

(** The prefixes of a list of parts, part by part. *)
Lemma prefixes_cons (x : string) (l : list string) :
  imap (fun index _ => Js.join "." (take (S index) (x :: l))) (x :: l)
  = x :: map (fun p => x +:+ "." +:+ p)
             (imap (fun index _ => Js.join "." (take (S index) l)) l).
Proof.
  rewrite imap_cons. f_equal.
  change (map ?f ?l) with (f <$> l). rewrite fmap_imap.
  apply imap_ext. intros i y Hi. simpl.
  destruct l as [|z l]; [by rewrite lookup_nil in Hi|].
  reflexivity.
Qed.

Lemma parentsOf_empty : parentsOf "" = [ "" ].
Proof. reflexivity. Qed.

Lemma parentsOf_String c n :
  parentsOf (String c n) =
    if Ascii.eqb c "." then "" :: map (String ".") (parentsOf n)
    else map (String c) (parentsOf n).
Proof.
  unfold parentsOf. simpl Js.split.
  destruct (Ascii.eqb c ".") eqn:Hc.
  - by rewrite prefixes_cons.
  - destruct (Js.split "." n) as [|x r] eqn:Hs.
    { by apply split_nonempty in Hs. }
    cbv zeta. rewrite !prefixes_cons. simpl. f_equal.
    rewrite <- !list_fmap_compose. by apply list_fmap_ext.
Qed.

Lemma dotPrefix_empty p : dotPrefix p "" <-> p = "".
Proof.
  split; [|intros ->; by left].
  intros [->|[rest H]]; [done|]. by destruct p.
Qed.

Lemma dotPrefix_String p c n :
  dotPrefix p (String c n) <->
    (p = "" /\ c = "."%char) \/ (exists p', p = String c p' /\ dotPrefix p' n).
Proof.
  split.
  - intros [->|[rest H]].
    + right. exists n. split; [done|by left].
    + destruct p as [|d p]; simpl in H.
      * left. by inversion H.
      * inversion H; subst. right. exists p. split; [done|].
        right. by exists rest.
  - intros [[-> ->]|(p' & -> & [->|[rest ->]])].
    + right. by exists n.
    + by left.
    + right. by exists rest.
Qed.

(** The array the walk consumes holds exactly the dot-boundary prefixes
    of the name, the name included. *)
Lemma elem_of_parentsOf p n : p ∈ parentsOf n <-> dotPrefix p n.
Proof.
  revert p. induction n as [|c n IH]; intros p.
  - rewrite parentsOf_empty, dotPrefix_empty. apply list_elem_of_singleton.
  - rewrite parentsOf_String, dotPrefix_String.
    destruct (Ascii.eqb_spec c ".") as [->|Hc].
    + rewrite elem_of_cons.
      change (map ?f ?l) with (f <$> l). rewrite list_elem_of_fmap.
      split.
      * intros [->|(p' & -> & Hp')]; [by left|].
        right. exists p'. by rewrite <- IH.
      * intros [[-> _]|(p' & -> & Hp')]; [by left|].
        right. exists p'. by rewrite IH.
    + change (map ?f ?l) with (f <$> l). rewrite list_elem_of_fmap.
      split.
      * intros (p' & -> & Hp'). right. exists p'. by rewrite <- IH.
      * intros [[_ ?]|(p' & -> & Hp')]; [done|].
        exists p'. by rewrite IH.
Qed.

(** ... from the shortest to the longest. *)
Lemma parentsOf_increasing n l1 p l2 :
  parentsOf n = l1 ++ p :: l2 ->
  forall q, q ∈ l2 -> String.length p < String.length q.
Proof.
  revert l1 p l2. induction n as [|c n IH]; intros l1 p l2.
  - rewrite parentsOf_empty. intros H q Hq.
    destruct l1 as [|? [|? ?]]; simplify_eq/=. by apply elem_of_nil in Hq.
  - rewrite parentsOf_String.
    assert (Hmap : forall d l1 p l2,
      map (String d) (parentsOf n) = l1 ++ p :: l2 ->
      forall q, q ∈ l2 -> String.length p < String.length q).
    { intros d k1 p0 k2 H q Hq.
      change (map ?f ?l) with (f <$> l) in H.
      apply fmap_app_inv in H as (m1 & m2' & -> & Hm2 & Hn).
      symmetry in Hm2.
      apply fmap_cons_inv in Hm2 as (p' & m2 & -> & -> & ->).
      apply list_elem_of_fmap in Hq as (q' & -> & Hq').
      simpl. apply ->Nat.succ_lt_mono. by eapply IH. }
    destruct (Ascii.eqb c ".").
    + intros H q Hq. destruct l1 as [|x l1]; simplify_eq/=.
      * change (map ?f ?l) with (f <$> l) in Hq.
        apply list_elem_of_fmap in Hq as (q' & -> & _). simpl. lia.
      * by eapply Hmap.
    + apply Hmap.
Qed.

End DottedNames.

(** ** Resolution *)

Section Resolution.

Variable s : state.

Lemma truthy_nonempty p : p <> "" -> Js.truthy p = true.
Proof. by destruct p. Qed.

Lemma walkParents_skip l rest :
  (forall q, q ∈ l -> q = "" \/ explicitAt s q = None) ->
  walkParents s (l ++ rest) = walkParents s rest.
Proof.
  induction l as [|q l IH]; intros H; [done|].
  simpl. rewrite IH by (intros; apply H; by right).
  destruct (H q) as [->|Hq]; [by left|done|].
  unfold explicitAt in Hq.
  destruct (Js.truthy q); [|done]. simpl.
  destruct (reg_get (featureRegistry s) q); [|done]. by rewrite Hq.
Qed.

Lemma walkParents_hit p b rest :
  p <> "" -> explicitAt s p = Some b -> walkParents s (p :: rest) = Some b.
Proof.
  intros Hp Hb. simpl. rewrite truthy_nonempty by done. simpl.
  unfold explicitAt in Hb.
  destruct (reg_get (featureRegistry s) p); [|done]. by rewrite Hb.
Qed.

Lemma walkParents_nearest n p b :
  p <> "" -> dotPrefix p n -> explicitAt s p = Some b ->
  (forall q, dotPrefix q n -> String.length p < String.length q ->
             explicitAt s q = None) ->
  walkParents s (rev (parentsOf n)) = Some b.
Proof.
  intros Hp Hpre Hb Hnear.
  apply elem_of_parentsOf, list_elem_of_split in Hpre as (l1 & l2 & Hsplit).
  rewrite Hsplit, rev_app_distr. simpl. rewrite <- app_assoc.
  rewrite walkParents_skip; [by apply walkParents_hit|].
  intros q Hq. right. apply Hnear.
  - apply elem_of_parentsOf. rewrite Hsplit.
    apply list_elem_of_In, in_rev, list_elem_of_In in Hq.
    apply elem_of_app. right. by right.
  - eapply parentsOf_increasing; [done|].
    by apply list_elem_of_In, in_rev, list_elem_of_In in Hq.
Qed.

Lemma walkParents_none n :
  (forall p, dotPrefix p n -> p <> "" -> explicitAt s p = None) ->
  walkParents s (rev (parentsOf n)) = None.
Proof.
  intros H. rewrite <- (app_nil_r (rev _)).
  rewrite walkParents_skip; [done|].
  intros q Hq. destruct (decide (q = "")) as [|Hne]; [by left|right].
  apply H; [|done]. apply elem_of_parentsOf.
  by apply list_elem_of_In, in_rev, list_elem_of_In in Hq.
Qed.

End Resolution.

(** C1 (as amended).  A node's own explicit state is returned as it is.
    Otherwise the walk returns the explicit state found in the registry at
    the longest non-empty dot-boundary prefix of the node's qualified name
    that is registered with an explicit state; the candidates include the
    full qualified name itself, looked up in the registry, before the strict
    ancestors, and prefixes that are unregistered or carry no explicit state
    are passed over. *)
Theorem isFeatureEnabled_precedence (s : state) (a : addr) :
  (forall b, enabledOf (objects s) a = Some b -> isFeatureEnabled s a = b) /\
  (enabledOf (objects s) a = None ->
   forall p b,
     p <> "" ->
     dotPrefix p (nameOf (objects s) a) ->
     explicitAt s p = Some b ->
     (forall q, dotPrefix q (nameOf (objects s) a) ->
                String.length p < String.length q ->
                explicitAt s q = None) ->
     isFeatureEnabled s a = b).
Proof.
  unfold isFeatureEnabled. split.
  - by intros b ->.
  - intros -> p b Hp Hpre Hb Hnear.
    by rewrite (walkParents_nearest s _ p b).
Qed.

Lemma isFeatureEnabled_precedence_witness :
  isFeatureEnabled redeclared 0 = false.
Proof.
  apply (proj2 (isFeatureEnabled_precedence redeclared 0) eq_refl "a.b" false).
  - done.
  - by left.
  - reflexivity.
  - intros q [->|[rest Hq]] Hlen; [simpl in Hlen; lia|].
    apply (f_equal String.length) in Hq. simpl in Hq, Hlen.
    rewrite !length_append in Hq. simpl in Hq. lia.
Defined.

(** For a node the registry holds under its own qualified name, and whose
    ancestors have non-empty names, the rule of the specification holds as
    it is worded: the nearest strict ancestor with an explicit state wins. *)
Lemma isFeatureEnabled_registered_node (s : state) (a : addr) p b :
  enabledOf (objects s) a = None ->
  reg_get (featureRegistry s) (nameOf (objects s) a) = Some a ->
  p <> "" ->
  strictDotPrefix p (nameOf (objects s) a) ->
  explicitAt s p = Some b ->
  (forall q, strictDotPrefix q (nameOf (objects s) a) ->
             String.length p < String.length q ->
             explicitAt s q = None) ->
  isFeatureEnabled s a = b.
Proof.
  intros Hnone Hself Hp Hpre Hb Hnear.
  unfold isFeatureEnabled. rewrite Hnone.
  rewrite (walkParents_nearest s _ p b); auto.
  - by right.
  - intros q [->|Hq] Hlen; [|by apply Hnear].
    unfold explicitAt. by rewrite Hself.
Qed.

(** C1, counterexample.  In [redeclared] the object of the first declaration
    named [a.b] has no explicit state, its only strict ancestor prefix [a]
    is registered and explicitly enabled, and yet it resolves to disabled:
    the walk first reads the registry at [a.b] itself, where the second
    declaration's object sits, disabled.  In [emptyNamedRoot] the flag [.x]
    has the registered, disabled ancestor prefix [""] and resolves to
    enabled: the walk passes over an empty name. *)
Lemma precedence_as_stated_fails :
  (nameOf (objects redeclared) 0 = "a.b" /\
   enabledOf (objects redeclared) 0 = None /\
   explicitAt redeclared "a" = Some true /\
   explicitAt redeclared "a.b" = Some false /\
   isFeatureEnabled redeclared 0 = false) /\
  (nameOf (objects emptyNamedRoot) 0 = ".x" /\
   enabledOf (objects emptyNamedRoot) 0 = None /\
   explicitAt emptyNamedRoot "" = Some false /\
   isFeatureEnabled emptyNamedRoot 0 = true) /\
  ~ precedence_as_stated.
Proof.
  split; [by vm_compute|]. split; [by vm_compute|].
  intros H. destruct (H redeclared 0) as [_ H0].
  specialize (H0 eq_refl "a" true).
  assert (isFeatureEnabled redeclared 0 = true) as Hbad; [|done].
  apply H0.
  - by exists "b"%string.
  - reflexivity.
  - intros q [rest Hq] Hlen. exfalso.
    destruct q as [|c1 [|c2 [|c3 q]]]; simpl in Hq, Hlen; try lia;
      simplify_eq.
    by destruct q.
Qed.

(** C2 (as amended).  A node without explicit state resolves to enabled
    when the registry holds no explicit state at any non-empty dot-boundary
    prefix of its qualified name, the full qualified name included. *)
Theorem isFeatureEnabled_default (s : state) (a : addr) :
  enabledOf (objects s) a = None ->
  (forall p, dotPrefix p (nameOf (objects s) a) -> p <> "" ->
             explicitAt s p = None) ->
  isFeatureEnabled s a = true.
Proof.
  intros Hnone H. unfold isFeatureEnabled.
  by rewrite Hnone, walkParents_none.
Qed.

Lemma isFeatureEnabled_default_witness :
  isFeatureEnabled declared 0 = true.
Proof.
  apply (isFeatureEnabled_default declared 0).
  - reflexivity.
  - intros p Hp Hne. apply elem_of_parentsOf in Hp.
    change (p ∈ [ "a"; "a.b" ]) in Hp.
    apply elem_of_cons in Hp as [->|Hp]; [reflexivity|].
    apply list_elem_of_singleton in Hp as ->. reflexivity.
Defined.

(** C2, counterexample.  In [shadowedRoot] the first object named [one] has
    no explicit state and no ancestor at all, and resolves to disabled. *)
Lemma default_as_stated_fails :
  (nameOf (objects shadowedRoot) 0 = "one" /\
   enabledOf (objects shadowedRoot) 0 = None /\
   reg_get (featureRegistry shadowedRoot) "one" = Some 1 /\
   enabledOf (objects shadowedRoot) 1 = Some false /\
   isFeatureEnabled shadowedRoot 0 = false) /\
  ~ default_as_stated.
Proof.
  split; [by vm_compute|].
  intros H.
  assert (isFeatureEnabled shadowedRoot 0 = true) as Hbad; [|done].
  apply H; [reflexivity|].
  intros p [rest Hp]. exfalso.
  simpl in Hp.
  destruct p as [|c1 [|c2 [|c3 [|c4 p]]]]; simplify_eq/=.
Qed.

(** ** [getFeature] *)

Lemma startsWith_dash rest : Js.startsWith "-" ("-" +:+ rest) = true.
Proof. reflexivity. Qed.

Lemma startsWith_false name :
  (forall rest, name <> "-" +:+ rest) -> Js.startsWith "-" name = false.
Proof.
  intros H. destruct name as [|c name]; [done|]. simpl.
  destruct (Ascii.eqb_spec c "-") as [->|]; [|done].
  by destruct (H name).
Qed.

(** C8.  [getFeature] has no failing path (it is a total function with no
    [Thrown] outcome).  On ["-" ++ rest] it looks [rest] up and answers with
    a disabled marker carrying the found node's qualified name, never with
    the node itself, or with [null] when [rest] is not registered; on a name
    that does not begin with ["-"] it answers with the registered node or
    with [null]. *)
Theorem getFeature_cases (s : state) :
  (forall rest,
     getFeature ("-" +:+ rest) s =
       match reg_get (featureRegistry s) rest with
       | Some node => VMarker (nameOf (objects s) node)
       | None => VNull
       end) /\
  (forall name,
     (forall rest, name <> "-" +:+ rest) ->
     getFeature name s =
       match reg_get (featureRegistry s) name with
       | Some node => VFeature node
       | None => VNull
       end).
Proof.
  split.
  - intros rest. unfold getFeature. by rewrite startsWith_dash.
  - intros name Hname. unfold getFeature. by rewrite startsWith_false.
Qed.

Lemma getFeature_cases_witness :
  getFeature "-a.b" declared = VMarker "a.b" /\
  getFeature "a" declared = VFeature 1 /\
  getFeature "b" declared = VNull.
Proof.
  destruct (getFeature_cases declared) as [Hdash Hplain].
  split; [exact (Hdash "a.b")|].
  split; [apply (Hplain "a")|apply (Hplain "b")];
    intros rest H; discriminate H.
Defined.

(** ** [loadFeatures] *)

Section LoadFeatures.

Lemma loadOne_registry s d : featureRegistry (loadOne s d) = featureRegistry s.
Proof.
  destruct d; simpl; try done.
  by destruct (reg_get (featureRegistry s) name).
Qed.

Lemma fold_loadOne_registry ds s :
  featureRegistry (fold_left loadOne ds s) = featureRegistry s.
Proof.
  revert s. induction ds as [|d ds IH]; intros s; [done|].
  simpl. by rewrite IH, loadOne_registry.
Qed.

Lemma clearEnabled_registry s :
  featureRegistry (clearEnabled s) = featureRegistry s.
Proof. reflexivity. Qed.

Lemma loadFeatures_registry ds ov s :
  featureRegistry (loadFeatures ds ov s) = featureRegistry s.
Proof.
  unfold loadFeatures. rewrite fold_loadOne_registry. by destruct ov.
Qed.

Lemma loadOne_skipped s d : skipped (featureRegistry s) d -> loadOne s d = s.
Proof.
  intros [Hd|(n & -> & Hn)].
  - by destruct d.
  - simpl. by rewrite Hn.
Qed.

End LoadFeatures.

(** ** [loadFeaturesFromString] on the empty string *)

(** C9.  Loading the empty string returns normally and leaves the state,
    registry keys and explicit states alike, as it was; this is the string
    [registerFeatures] loads when the environment variable is unset, so
    that registration then only fills the registry. *)
Theorem loadFeaturesFromString_empty :
  (forall s, loadFeaturesFromString "" s = (Returned, s)) /\
  (forall features options s,
     registerFeatures features options noEnv s
     = (Returned,
        State (objects s)
              (register (objects s) features
                 (if override options then [] else featureRegistry s)))).
Proof.
  split; [done|].
  intros features options s. unfold registerFeatures.
  destruct (parsesEnv (parseEnv options)); [|done].
  by destruct (parseEnv options).
Qed.

(** ** The bulk loader *)

Section Store.

Lemma lookup_setEnabled a e h i :
  setEnabled a e h !! i =
    if decide (i = a)
    then (fun c => Cell (symFeatureName c) (symFeatureLeafName c) e) <$> h !! i
    else h !! i.
Proof.
  unfold setEnabled. case_decide as Hi.
  - subst. apply list_lookup_alter_eq.
  - by apply list_lookup_alter_ne.
Qed.

Lemma lookup_fold_setEnabled e l h i :
  fold_left (fun h a => setEnabled a e h) l h !! i =
    if decide (i ∈ l)
    then (fun c => Cell (symFeatureName c) (symFeatureLeafName c) e) <$> h !! i
    else h !! i.
Proof.
  revert h. induction l as [|a l IH]; intros h; [done|].
  simpl. rewrite IH, lookup_setEnabled.
  repeat case_decide; subst;
    try match goal with
        | H : ?x ∈ ?y :: ?l |- _ => apply elem_of_cons in H as [?|?]
        | H : ?x ∉ ?y :: ?l |- _ => exfalso; apply H; (by left) || (by right)
        end;
    try done.
  all: by destruct (h !! a).
Qed.

Lemma nameOf_fold_setEnabled e l h i :
  nameOf (fold_left (fun h a => setEnabled a e h) l h) i = nameOf h i.
Proof.
  unfold nameOf. rewrite lookup_fold_setEnabled.
  case_decide; destruct (h !! i); done.
Qed.

Lemma enabledOf_fold_setEnabled_in e l h i :
  i ∈ l -> i < length h ->
  enabledOf (fold_left (fun h a => setEnabled a e h) l h) i = e.
Proof.
  intros Hin Hlt. unfold enabledOf. rewrite lookup_fold_setEnabled.
  rewrite decide_True by done.
  apply lookup_lt_is_Some in Hlt as [c ->]. done.
Qed.

Lemma enabledOf_fold_setEnabled_notin e l h i :
  i ∉ l ->
  enabledOf (fold_left (fun h a => setEnabled a e h) l h) i = enabledOf h i.
Proof.
  intros Hin. unfold enabledOf. rewrite lookup_fold_setEnabled.
  by rewrite decide_False.
Qed.

Lemma reg_get_elem r k a :
  NoDup (reg_keys r) -> (k, a) ∈ r -> reg_get r k = Some a.
Proof.
  induction r as [|[k' a'] r IH]; intros Hnd Hin.
  - by apply elem_of_nil in Hin.
  - simpl in *. apply NoDup_cons in Hnd as [Hk' Hnd].
    apply elem_of_cons in Hin as [Heq|Hin].
    + simplify_eq. by rewrite String.eqb_refl.
    + destruct (String.eqb_spec k' k) as [->|Hne]; [|by apply IH].
      exfalso. apply Hk'. unfold reg_keys.
      change (map ?f ?l) with (f <$> l). apply list_elem_of_fmap.
      by exists (k, a).
Qed.

Lemma elem_of_reg_values r a : a ∈ reg_values r <-> exists k, (k, a) ∈ r.
Proof.
  unfold reg_values. change (map ?f ?l) with (f <$> l).
  rewrite list_elem_of_fmap. split.
  - intros ([k a'] & -> & Hin). by exists k.
  - intros (k & Hin). by exists (k, a).
Qed.

End Store.

Section Wildcard.

Lemma elem_of_rootRefs s a :
  a ∈ rootRefs s <->
  a ∈ reg_values (featureRegistry s) /\ rootLevel (objects s) a.
Proof.
  unfold rootRefs, rootLevel. rewrite list_elem_of_filter.
  destruct (Js.includes "." (nameOf (objects s) a)); simpl.
  - split; [intros [HF _]; by destruct HF|by intros [_ ?]].
  - split; intros [? ?]; done.
Qed.

Lemma fold_loadOne_markers (s : state) (l : list addr) (h : heap) :
  (forall a, a ∈ l ->
     reg_get (featureRegistry s) (nameOf (objects s) a) = Some a) ->
  fold_left loadOne (map (fun a => asDisabled a s) l)
            (State h (featureRegistry s))
  = State (fold_left (fun h a => setEnabled a (Some false) h) l h)
          (featureRegistry s).
Proof.
  revert h. induction l as [|a l IH]; intros h Hl; [done|].
  simpl. rewrite (Hl a) by left. apply IH.
  intros a' Ha'. apply Hl. by right.
Qed.

Lemma disableAll_objects s :
  registry_ok s ->
  disableAll s
  = State (fold_left (fun h a => setEnabled a (Some false) h)
                     (rootRefs s) (objects s))
          (featureRegistry s).
Proof.
  intros [Hnd Hent].
  unfold disableAll, loadFeatures, topLevelDisabled.
  rewrite <- (fold_loadOne_markers s (rootRefs s) (objects s)).
  - by destruct s.
  - intros a [Hreg Hroot]%elem_of_rootRefs.
    apply elem_of_reg_values in Hreg as [k Hk].
    destruct (Hent k a Hk) as [_ Hname].
    apply reg_get_elem; [done|]. by rewrite <- Hname.
Qed.

End Wildcard.

Section NamedPass.

Lemma existsb_wildcard names :
  existsb (String.eqb "-*") names = true <-> "-*" ∈ names.
Proof.
  rewrite existsb_exists. split.
  - intros (x & Hin & Hx). apply String.eqb_eq in Hx as <-.
    by apply list_elem_of_In.
  - intros Hin. exists "-*". split; [by apply list_elem_of_In|done].
Qed.

Lemma existsb_no_wildcard names :
  existsb (String.eqb "-*") (filter (fun n => n <> "-*") names) = false.
Proof.
  apply not_true_is_false. rewrite existsb_wildcard.
  by intros [? _]%list_elem_of_filter.
Qed.

(** The wildcard token plays no part in the per-name pass. *)
Lemma resolveNames_filter names s :
  resolveNames (filter (fun n => n <> "-*") names) s = resolveNames names s.
Proof.
  induction names as [|n names IH]; [done|].
  rewrite filter_cons. case_decide as Hn.
  - simpl. by rewrite IH.
  - subst n. simpl. apply IH.
Qed.

Lemma getFeature_null t s :
  getFeature t s = VNull <->
  reg_get (featureRegistry s)
          (if Js.startsWith "-" t then Js.slice1 t else t) = None.
Proof.
  unfold getFeature, asDisabled.
  destruct (Js.startsWith "-" t);
    destruct (reg_get (featureRegistry s) _); split; done.
Qed.

Lemma unknownName_registry s s' t :
  featureRegistry s' = featureRegistry s ->
  unknownName s' t <-> unknownName s t.
Proof.
  intros Hr. unfold unknownName. by rewrite !getFeature_null, Hr.
Qed.

(** When some name is unknown, resolution throws at the first one. *)
Lemma resolveNames_throws names s t :
  t ∈ names -> unknownName s t ->
  exists pre u post,
    names = pre ++ u :: post /\
    (forall v, v ∈ pre -> ~ unknownName s v) /\
    unknownName s u /\
    resolveNames names s = inl (notFoundMessage u s).
Proof.
  intros Hin Hunk. induction names as [|n names IH].
  { by apply elem_of_nil in Hin. }
  assert (Hstep : ~ unknownName s n -> t ∈ names).
  { intros Hn. apply elem_of_cons in Hin as [->|]; done. }
  assert (Hknown : ~ unknownName s n ->
    exists pre u post,
      n :: names = pre ++ u :: post /\
      (forall v, v ∈ pre -> ~ unknownName s v) /\
      unknownName s u /\
      resolveNames names s = inl (notFoundMessage u s)).
  { intros Hn. destruct (IH (Hstep Hn)) as (pre & u & post & -> & Hpre & Hu & Hres).
    exists (n :: pre), u, post. split_and!; try done.
    intros v [->|Hv]%elem_of_cons; [done|by apply Hpre]. }
  simpl.
  destruct (String.eqb_spec n "*") as [->|Hstar].
  { simpl. apply Hknown. by intros (? & _). }
  destruct (String.eqb_spec n "-*") as [->|Hwild].
  { simpl. apply Hknown. by intros (_ & ? & _). }
  simpl. destruct (getFeature n s) eqn:Hget.
  - destruct Hknown as (pre & u & post & Heq & Hpre & Hu & ->).
    { intros (_ & _ & Hnull). by rewrite Hget in Hnull. }
    by exists pre, u, post.
  - destruct Hknown as (pre & u & post & Heq & Hpre & Hu & ->).
    { intros (_ & _ & Hnull). by rewrite Hget in Hnull. }
    by exists pre, u, post.
  - exists [], n, names. split_and!; try done.
    intros v Hv. by apply elem_of_nil in Hv.
  - destruct Hknown as (pre & u & post & Heq & Hpre & Hu & ->).
    { intros (_ & _ & Hnull). by rewrite Hget in Hnull. }
    by exists pre, u, post.
Qed.

End NamedPass.

(** C3.  When the token ["-*"] occurs anywhere in the input, the load is
    the wildcard pass followed by the load of the remaining tokens on the
    state the wildcard pass produced.  The wildcard pass keeps the registry
    and every name, sets the explicit state of exactly the registered
    objects with a dot-free qualified name to [false], and leaves the
    explicit state of every other object as it was.  The state is one that
    satisfies the registry invariant, as every state reached through the
    library does ([reachable_registry_ok], at the end of the file). *)
Theorem loadFeaturesFromString_wildcard_first (s : state) (text text' : string) :
  registry_ok s ->
  "-*" ∈ featureNamesOf text ->
  featureNamesOf text' = filter (fun n => n <> "-*") (featureNamesOf text) ->
  loadFeaturesFromString text s = loadFeaturesFromString text' (disableAll s) /\
  loadFeaturesFromString text s =
    match resolveNames (featureNamesOf text) (disableAll s) with
    | inl msg => (Thrown msg, disableAll s)
    | inr named => (Returned, loadFeatures named false (disableAll s))
    end /\
  featureRegistry (disableAll s) = featureRegistry s /\
  (forall a, nameOf (objects (disableAll s)) a = nameOf (objects s) a) /\
  (forall a, a ∈ reg_values (featureRegistry s) -> rootLevel (objects s) a ->
             enabledOf (objects (disableAll s)) a = Some false) /\
  (forall a, ~ (a ∈ reg_values (featureRegistry s) /\ rootLevel (objects s) a) ->
             enabledOf (objects (disableAll s)) a = enabledOf (objects s) a).
Proof.
  intros Hok Hwild Htext'. apply existsb_wildcard in Hwild.
  split; [|split; [|rewrite (disableAll_objects s Hok); simpl; repeat split]].
  - unfold loadFeaturesFromString.
    rewrite Htext', existsb_no_wildcard, resolveNames_filter.
    by rewrite Hwild.
  - unfold loadFeaturesFromString. by rewrite Hwild.
  - intros a. apply nameOf_fold_setEnabled.
  - intros a Hreg Hroot. apply enabledOf_fold_setEnabled_in.
    + by apply elem_of_rootRefs.
    + apply elem_of_reg_values in Hreg as [k Hk].
      by destruct (proj2 Hok k a Hk).
  - intros a Hna. apply enabledOf_fold_setEnabled_notin.
    by rewrite elem_of_rootRefs.
Qed.

Lemma declared_registry_ok : registry_ok declared.
Proof.
  split.
  - apply (bool_decide_unpack _). by vm_compute.
  - intros k a Hin. change (featureRegistry declared) with [ ("a", 1); ("a.b", 0) ] in Hin.
    apply elem_of_cons in Hin as [Heq|Hin].
    { inversion Heq; subst. split; [simpl; lia|done]. }
    apply list_elem_of_singleton in Hin. inversion Hin; subst.
    split; [simpl; lia|]. intros Hroot. by vm_compute in Hroot.
Qed.

Lemma loadFeaturesFromString_wildcard_first_witness :
  loadFeaturesFromString "a.b, -*" declared
  = loadFeaturesFromString "a.b" (disableAll declared) /\
  enabledOf (objects (disableAll declared)) 1 = Some false /\
  enabledOf (objects (disableAll declared)) 0 = enabledOf (objects declared) 0.
Proof.
  destruct (loadFeaturesFromString_wildcard_first declared "a.b, -*" "a.b")
    as (Hload & _ & _ & _ & Hroots & Hothers).
  - exact declared_registry_ok.
  - apply (bool_decide_unpack _). by vm_compute.
  - reflexivity.
  - split; [exact Hload|]. split.
    + apply Hroots; [|reflexivity]. apply (bool_decide_unpack _). by vm_compute.
    + apply Hothers. intros [_ Hroot]. by vm_compute in Hroot.
Defined.

(** C4.  When some token other than ["*"] and ["-*"] names nothing in the
    registry, the load throws; the error names the first such token and
    lists the registry keys; the state left behind is the one after the
    wildcard pass when ["-*"] is among the tokens, and the untouched initial
    state otherwise: no named token, before or after the unknown one, has
    been applied. *)
Theorem loadFeaturesFromString_unknown (s : state) (text t : string) :
  t ∈ featureNamesOf text ->
  unknownName s t ->
  exists pre u post,
    featureNamesOf text = pre ++ u :: post /\
    (forall v, v ∈ pre -> ~ unknownName s v) /\
    unknownName s u /\
    loadFeaturesFromString text s =
      (Thrown ("Feature " +:+ u +:+ " not found. Available features: "
               +:+ String.concat ", " (map fst (featureRegistry s))),
       if decide ("-*" ∈ featureNamesOf text) then disableAll s else s).
Proof.
  intros Hin Hunk. unfold loadFeaturesFromString.
  set (s1 := if existsb _ _ then disableAll s else s).
  assert (Hr : featureRegistry s1 = featureRegistry s).
  { unfold s1. destruct (existsb _ _); [|done]. apply loadFeatures_registry. }
  assert (Hs1 : s1 = if decide ("-*" ∈ featureNamesOf text)
                     then disableAll s else s).
  { unfold s1. case_decide as Hw.
    - apply existsb_wildcard in Hw. by rewrite Hw.
    - destruct (existsb _ _) eqn:He; [|done].
      by apply existsb_wildcard in He. }
  destruct (resolveNames_throws (featureNamesOf text) s1 t Hin)
    as (pre & u & post & Heq & Hpre & Hu & Hres).
  { by apply (unknownName_registry s s1). }
  exists pre, u, post. split_and!.
  - done.
  - intros v Hv Hvu. apply (Hpre v Hv). by apply (unknownName_registry s s1).
  - by apply (unknownName_registry s s1 u Hr).
  - rewrite Hres, <- Hs1. unfold notFoundMessage. by rewrite Hr.
Qed.

Lemma loadFeaturesFromString_unknown_witness :
  declared = State [ Cell "a.b" "b" None; Cell "a" "a" None ]
                   [ ("a", 1); ("a.b", 0) ] /\
  loadFeaturesFromString "a, -*, nope, a.b" declared =
    (Thrown "Feature nope not found. Available features: a, a.b",
     State [ Cell "a.b" "b" None; Cell "a" "a" (Some false) ]
           [ ("a", 1); ("a.b", 0) ]).
Proof.
  split; [reflexivity|].
  destruct (loadFeaturesFromString_unknown declared "a, -*, nope, a.b" "nope")
    as (pre & u & post & Hnames & Hpre & (_ & Hwild & Hget) & Heq).
  - apply (bool_decide_unpack _). by vm_compute.
  - by repeat split.
  - rewrite Heq. clear Heq.
    assert (Hn : featureNamesOf "a, -*, nope, a.b" = [ "a"; "-*"; "nope"; "a.b" ])
      by reflexivity.
    rewrite Hn in Hnames.
    assert (Hu : u = "nope").
    { destruct pre as [|p0 [|p1 [|p2 [|p3 pre]]]]; simpl in Hnames; simplify_eq.
      - done.
      - by destruct pre. }
    subst u. reflexivity.
Defined.

(** ** Reads and writes *)

Lemma walkParents_skip_agree s l rest b :
  (forall q, q ∈ l -> explicitAt s q = None \/ explicitAt s q = Some b) ->
  walkParents s rest = Some b ->
  walkParents s (l ++ rest) = Some b.
Proof.
  intros Hl Hrest. induction l as [|q l IH]; [done|].
  simpl. rewrite IH by (intros; apply Hl; by right).
  destruct (Js.truthy q); [|done]. simpl.
  destruct (Hl q) as [Hq|Hq]; [by left| |]; unfold explicitAt in Hq;
    destruct (reg_get (featureRegistry s) q); by rewrite ?Hq.
Qed.

(** A variant of [walkParents_nearest] for a walk in which the prefixes
    beyond the nearest explicit one are either transparent or agree with
    it. *)
Lemma walkParents_agree s n p b :
  p <> "" -> dotPrefix p n -> explicitAt s p = Some b ->
  (forall q, dotPrefix q n -> String.length p < String.length q ->
             explicitAt s q = None \/ explicitAt s q = Some b) ->
  walkParents s (rev (parentsOf n)) = Some b.
Proof.
  intros Hp Hpre Hb Hnear.
  apply elem_of_parentsOf, list_elem_of_split in Hpre as (l1 & l2 & Hsplit).
  rewrite Hsplit, rev_app_distr. simpl. rewrite <- app_assoc.
  apply walkParents_skip_agree; [|by apply walkParents_hit].
  intros q Hq. apply list_elem_of_In, in_rev, list_elem_of_In in Hq.
  apply Hnear.
  - apply elem_of_parentsOf. rewrite Hsplit. apply elem_of_app. right. by right.
  - by eapply parentsOf_increasing.
Qed.

Lemma enabledOf_setEnabled a e h i :
  enabledOf (setEnabled a e h) i =
    if decide (i = a /\ a < length h) then e else enabledOf h i.
Proof.
  unfold enabledOf. rewrite lookup_setEnabled.
  case_decide as Hi.
  - subst. case_decide as Ha.
    + destruct Ha as [_ Ha]. apply lookup_lt_is_Some in Ha as [c ->]. done.
    + destruct (h !! a) eqn:Hl; [|done].
      exfalso. apply Ha. split; [done|]. apply lookup_lt_is_Some. by eexists.
  - rewrite decide_False; [done|]. by intros [? _].
Qed.

Lemma nameOf_setEnabled a e h i : nameOf (setEnabled a e h) i = nameOf h i.
Proof.
  unfold nameOf. rewrite lookup_setEnabled.
  case_decide; destruct (h !! i); done.
Qed.

(** The behaviour C5 describes, for [packages/core/src/index.ts]: a read
    hands back the state it was given, and once an ancestor registered at a
    prefix of the node's name is enabled or disabled, the next read of a
    node without explicit state returns the new value, provided no nearer
    prefix carried an explicit state. *)
Theorem isEnabled_computed_on_read (s : state) (a : addr) :
  snd (isEnabled a s) = s /\ snd (isDisabled a s) = s /\
  forall ancestor p b,
    enabledOf (objects s) a = None ->
    ancestor <> a ->
    ancestor < length (objects s) ->
    p <> "" ->
    dotPrefix p (nameOf (objects s) a) ->
    reg_get (featureRegistry s) p = Some ancestor ->
    (forall q, dotPrefix q (nameOf (objects s) a) ->
               String.length p < String.length q -> explicitAt s q = None) ->
    let write := if b : bool then enable ancestor else disable ancestor in
    fst (isEnabled a (write (snd (isEnabled a s)))) = b.
Proof.
  split; [done|]. split; [done|].
  intros anc p b Hnone Hne Hlt Hp Hpre Hreg Hnear write. simpl.
  set (s' := write s).
  assert (Hs' : s' = State (setEnabled anc (Some b) (objects s)) (featureRegistry s)).
  { unfold s', write. by destruct b. }
  unfold isFeatureEnabled. rewrite Hs'. simpl.
  rewrite enabledOf_setEnabled, decide_False by (by intros [? _]).
  rewrite Hnone, nameOf_setEnabled.
  rewrite (walkParents_agree _ _ p b); try done.
  - unfold explicitAt. simpl. rewrite Hreg, enabledOf_setEnabled.
    by rewrite decide_True.
  - intros q Hq Hlen. specialize (Hnear q Hq Hlen).
    unfold explicitAt in *. simpl.
    destruct (reg_get (featureRegistry s) q) as [x|]; [|by left].
    rewrite enabledOf_setEnabled. case_decide; [by right|by left].
Qed.

Lemma isEnabled_computed_on_read_witness :
  fst (isEnabled 0 (disable 1 (snd (isEnabled 0 declared)))) = false.
Proof.
  apply (proj2 (proj2 (isEnabled_computed_on_read declared 0)) 1 "a" false).
  - reflexivity.
  - done.
  - simpl. lia.
  - done.
  - right. by exists "b"%string.
  - reflexivity.
  - intros q Hq Hlen. apply elem_of_parentsOf in Hq.
    change (q ∈ [ "a"; "a.b" ]) in Hq.
    apply elem_of_cons in Hq as [->|Hq]; [simpl in Hlen; lia|].
    apply list_elem_of_singleton in Hq as ->. reflexivity.
Defined.

(** On the older copy every read of a node without explicit state stores
    the value it returns in the node. *)
Lemma legacy_isFeatureEnabled_writes (s : state) (a : addr) :
  enabledOf (objects s) a = None ->
  a < length (objects s) ->
  enabledOf (objects (snd (Legacy.isFeatureEnabled a s))) a
  = Some (fst (Legacy.isFeatureEnabled a s)).
Proof.
  intros Hnone Hlt. unfold Legacy.isFeatureEnabled. rewrite Hnone. simpl.
  destruct (walkParents s (rev (parentsOf (nameOf (objects s) a)))) as [b|].
  - rewrite !enabledOf_setEnabled, decide_True by done. simpl.
    by rewrite enabledOf_setEnabled, decide_True.
  - rewrite Hnone. simpl. by rewrite !enabledOf_setEnabled, decide_True.
Qed.

(** C5, on the older copy [src/index.ts].  There the first read of [a.b]
    stores the inherited value in the node, and after the parent [a] is
    disabled the node still reads enabled; the newer copy reads disabled in
    the same situation. *)
Theorem legacy_isFeatureEnabled_caches :
  fst (Legacy.isFeatureEnabled 0 declared) = true /\
  enabledOf (objects declared) 0 = None /\
  enabledOf (objects (snd (Legacy.isFeatureEnabled 0 declared))) 0 = Some true /\
  fst (Legacy.isFeatureEnabled 0
         (disable 1 (snd (Legacy.isFeatureEnabled 0 declared)))) = true /\
  fst (isEnabled 0 (disable 1 (snd (isEnabled 0 declared)))) = false.
Proof. by vm_compute. Qed.

(** ** The tree builder *)

(** Structural induction on feature objects, with the hypothesis for every
    subfeature. *)
Lemma FeatureObject_ind (P : FeatureObject -> Prop) :
  (forall a props,
     (forall k sub, (k, Some sub) ∈ props -> P sub) -> P (Feature a props)) ->
  forall o, P o.
Proof.
  intros H. fix F 1. intros [a props]. apply H.
  induction props as [|[k' [c|]] props IH]; intros k sub Hin.
  - clear F. by apply elem_of_nil in Hin.
  - apply elem_of_cons in Hin as [Heq|Hin]; [|exact (IH k sub Hin)].
    injection Heq as -> ->. exact (F c).
  - apply elem_of_cons in Hin as [Heq|Hin]; [|exact (IH k sub Hin)].
    clear F. discriminate Heq.
Qed.

Section Builder.

Lemma prefixOne_unfold feature a props h :
  prefixOne feature (Feature a props) h =
    prefixFeatureName (feature +:+ "." +:+ leafNameOf h a) props
      (setName a (feature +:+ "." +:+ leafNameOf h a) h).
Proof. reflexivity. Qed.

Lemma elem_of_refsOfProps i props :
  i ∈ refsOfProps props <->
  exists k sub, (k, Some sub) ∈ props /\ i ∈ refsOf sub.
Proof.
  unfold refsOfProps. rewrite list_elem_of_In, in_flat_map. split.
  - intros ([k [sub|]] & Hin & Hi); [|done].
    exists k, sub. by rewrite !list_elem_of_In.
  - intros (k & sub & Hin & Hi). exists (k, Some sub).
    by rewrite <- !list_elem_of_In.
Qed.

Lemma refsOf_unfold a props : refsOf (Feature a props) = a :: refsOfProps props.
Proof. reflexivity. Qed.

Lemma ref_of_in_refsOf o : ref_of o ∈ refsOf o.
Proof. destruct o. rewrite refsOf_unfold. by left. Qed.

Lemma lookup_setName a n h i :
  setName a n h !! i =
    if decide (i = a)
    then (fun c => Cell n (symFeatureLeafName c) (symFeatureEnabled c)) <$> h !! i
    else h !! i.
Proof.
  unfold setName. case_decide as Hi.
  - subst. apply list_lookup_alter_eq.
  - by apply list_lookup_alter_ne.
Qed.

Lemma sameButNames_refl h : sameButNames h h.
Proof. by split. Qed.

Lemma sameButNames_trans h1 h2 h3 :
  sameButNames h1 h2 -> sameButNames h2 h3 -> sameButNames h1 h3.
Proof.
  intros [Hl1 H1] [Hl2 H2]. split; [congruence|].
  intros i. destruct (H1 i), (H2 i). split; congruence.
Qed.

Lemma sameButNames_setName a n h : sameButNames h (setName a n h).
Proof.
  split; [apply length_alter|].
  intros i. unfold leafNameOf, enabledOf. rewrite lookup_setName.
  case_decide; destruct (h !! i); done.
Qed.

Lemma nameOf_setName a n h i :
  nameOf (setName a n h) i =
    if decide (i = a /\ a < length h) then n else nameOf h i.
Proof.
  unfold nameOf. rewrite lookup_setName. case_decide as Hi.
  - subst. case_decide as Ha.
    + destruct Ha as [_ Ha]. apply lookup_lt_is_Some in Ha as [c ->]. done.
    + destruct (h !! a) eqn:Hl; [|done].
      exfalso. apply Ha. split; [done|]. apply lookup_lt_is_Some. by eexists.
  - rewrite decide_False; [done|]. by intros [? _].
Qed.

Lemma prefixFeatureName_fold (P : heap -> heap -> Prop) feature props h :
  (forall h, P h h) ->
  (forall h1 h2 h3, P h1 h2 -> P h2 h3 -> P h1 h3) ->
  (forall k sub, (k, Some sub) ∈ props ->
     forall feature h, P h (prefixOne feature sub h)) ->
  P h (prefixFeatureName feature props h).
Proof.
  intros Hrefl Htrans. revert h.
  induction props as [|[k [c|]] props IH]; intros h Hsub; simpl.
  - apply Hrefl.
  - eapply Htrans; [apply (Hsub k c); by left|].
    apply IH. intros k' sub Hin. apply (Hsub k' sub). by right.
  - apply IH. intros k' sub Hin. apply (Hsub k' sub). by right.
Qed.

Lemma prefixOne_sameButNames o :
  forall feature h, sameButNames h (prefixOne feature o h).
Proof.
  induction o as [a props IH] using FeatureObject_ind. intros feature h.
  rewrite prefixOne_unfold.
  eapply sameButNames_trans; [apply sameButNames_setName|].
  apply (prefixFeatureName_fold sameButNames);
    [apply sameButNames_refl|apply sameButNames_trans|done].
Qed.

Lemma prefixFeatureName_sameButNames feature props h :
  sameButNames h (prefixFeatureName feature props h).
Proof.
  apply (prefixFeatureName_fold sameButNames);
    [apply sameButNames_refl|apply sameButNames_trans|].
  intros. apply prefixOne_sameButNames.
Qed.

(** Renaming touches the names of the renamed tree only. *)
Lemma prefixOne_frame o :
  forall feature h i, i ∉ refsOf o -> nameOf (prefixOne feature o h) i = nameOf h i.
Proof.
  induction o as [a props IH] using FeatureObject_ind. intros feature h i Hi.
  rewrite prefixOne_unfold. rewrite refsOf_unfold in Hi.
  apply not_elem_of_cons in Hi as [Hia Hi].
  transitivity (nameOf (setName a (feature +:+ "." +:+ leafNameOf h a) h) i).
  2:{ rewrite nameOf_setName, decide_False; [done|]. by intros [? _]. }
  generalize (setName a (feature +:+ "." +:+ leafNameOf h a) h).
  generalize (feature +:+ "." +:+ leafNameOf h a).
  clear feature h. intros feature h.
  apply (prefixFeatureName_fold (fun h h' => nameOf h' i = nameOf h i));
    [done|congruence|].
  intros k sub Hin f h0. apply IH with k; [done|].
  intros Hisub. apply Hi, elem_of_refsOfProps. by exists k, sub.
Qed.

Lemma prefixFeatureName_frame feature props h i :
  i ∉ refsOfProps props ->
  nameOf (prefixFeatureName feature props h) i = nameOf h i.
Proof.
  intros Hi.
  apply (prefixFeatureName_fold (fun h h' => nameOf h' i = nameOf h i));
    [done|congruence|].
  intros k sub Hin f h0. apply prefixOne_frame.
  intros Hisub. apply Hi, elem_of_refsOfProps. by exists k, sub.
Qed.

(** The naming invariant reads names and leaf names of the tree only. *)
Lemma wellNamed_transfer o :
  forall h h',
    (forall i, i ∈ refsOf o ->
       nameOf h' i = nameOf h i /\ leafNameOf h' i = leafNameOf h i) ->
    wellNamed h o -> wellNamed h' o.
Proof.
  induction o as [a props IH] using FeatureObject_ind. intros h h' Hsame Hwn.
  inversion Hwn as [a' props' Hsub]; subst. constructor.
  intros k sub Hin. destruct (Hsub k sub Hin) as [Hname Hwsub].
  assert (Hin' : forall i, i ∈ refsOf sub -> i ∈ refsOf (Feature a props)).
  { intros i Hi. rewrite refsOf_unfold. right.
    apply elem_of_refsOfProps. by exists k, sub. }
  split.
  - destruct (Hsame (ref_of sub)) as [-> ->]; [apply Hin', ref_of_in_refsOf|].
    destruct (Hsame a) as [-> _]; [rewrite refsOf_unfold; by left|]. done.
  - apply (IH k sub Hin h h'); [|done]. intros i Hi. by apply Hsame, Hin'.
Qed.

(** Renaming a tree without shared objects names it under the prefix. *)
Lemma prefixFeatureName_names props :
  (forall k sub, (k, Some sub) ∈ props ->
     forall feature h,
       NoDup (refsOf sub) ->
       (forall a, a ∈ refsOf sub -> a < length h) ->
       nameOf (prefixOne feature sub h) (ref_of sub)
         = feature +:+ "." +:+ leafNameOf h (ref_of sub)
       /\ wellNamed (prefixOne feature sub h) sub) ->
  forall feature h,
    NoDup (refsOfProps props) ->
    (forall a, a ∈ refsOfProps props -> a < length h) ->
    forall k sub, (k, Some sub) ∈ props ->
      nameOf (prefixFeatureName feature props h) (ref_of sub)
        = feature +:+ "." +:+ leafNameOf h (ref_of sub)
      /\ wellNamed (prefixFeatureName feature props h) sub.
Proof.
  induction props as [|[k0 [c|]] props IHprops];
    intros IH feature h Hnd Hvalid k sub Hin.
  - by apply elem_of_nil in Hin.
  - change (refsOfProps ((k0, Some c) :: props))
      with (refsOf c ++ refsOfProps props) in Hnd, Hvalid.
    apply NoDup_app in Hnd as (Hndc & Hdisj & Hndrest).
    change (prefixFeatureName feature ((k0, Some c) :: props) h)
      with (prefixFeatureName feature props (prefixOne feature c h)).
    destruct (prefixOne_sameButNames c feature h) as [Hlen Hsame].
    apply elem_of_cons in Hin as [Heq|Hin].
    + injection Heq as -> ->.
      destruct (IH k0 c ltac:(by left) feature h Hndc) as [Hname Hwn].
      { intros a Ha. apply Hvalid, elem_of_app. by left. }
      split.
      * rewrite prefixFeatureName_frame; [done|].
        apply Hdisj, ref_of_in_refsOf.
      * apply (wellNamed_transfer c (prefixOne feature c h)); [|done].
        intros i Hi. split.
        -- apply prefixFeatureName_frame. by apply Hdisj.
        -- apply prefixFeatureName_sameButNames.
    + destruct (IHprops) with (feature := feature) (h := prefixOne feature c h)
        (k := k) (sub := sub) as [Hname Hwn]; try done.
      * intros k' sub' Hin'. apply (IH k' sub'). by right.
      * intros a Ha. rewrite Hlen. apply Hvalid, elem_of_app. by right.
      * split; [|done]. rewrite Hname. by destruct (Hsame (ref_of sub)) as [-> _].
  - change (refsOfProps ((k0, None) :: props)) with (refsOfProps props)
      in Hnd, Hvalid.
    change (prefixFeatureName feature ((k0, None) :: props) h)
      with (prefixFeatureName feature props h).
    apply elem_of_cons in Hin as [Heq|Hin]; [discriminate Heq|].
    apply (fun HIH => IHprops HIH feature h Hnd Hvalid k sub Hin).
    intros k' sub' Hin'. apply (IH k' sub'). by right.
Qed.

Lemma prefixOne_names o :
  forall feature h,
    NoDup (refsOf o) ->
    (forall a, a ∈ refsOf o -> a < length h) ->
    nameOf (prefixOne feature o h) (ref_of o)
      = feature +:+ "." +:+ leafNameOf h (ref_of o)
    /\ wellNamed (prefixOne feature o h) o.
Proof.
  induction o as [a props IH] using FeatureObject_ind.
  intros feature h Hnd Hvalid. rewrite prefixOne_unfold.
  rewrite refsOf_unfold in Hnd, Hvalid.
  apply NoDup_cons in Hnd as [Ha Hnd].
  set (prefixed := feature +:+ "." +:+ leafNameOf h a).
  set (h1 := setName a prefixed h).
  assert (Hname : nameOf (prefixFeatureName prefixed props h1) a = prefixed).
  { rewrite prefixFeatureName_frame by done. unfold h1.
    rewrite nameOf_setName, decide_True; [done|].
    split; [done|]. apply Hvalid. by left. }
  split; [done|]. constructor. intros k sub Hin. simpl in Hname. rewrite Hname.
  destruct (prefixFeatureName_names props IH prefixed h1 Hnd) with k sub
    as [Hsubname Hwn]; try done.
  - intros i Hi. unfold h1, setName. rewrite length_alter.
    apply Hvalid. by right.
  - split; [|done]. rewrite Hsubname.
    destruct (prefixFeatureName_sameButNames prefixed props h1) as [_ Hsame].
    by destruct (Hsame (ref_of sub)) as [-> _].
Qed.

End Builder.

(** C6 (as amended).  When no object occurs twice among the subfeatures and
    their descendants, [defineFeature] returns a node named by its leaf name
    below which every descendant is named [parent.leaf]; trees built before
    that share no object with the subfeatures keep their names; every
    subfeature handed over, also one under the key of a method, is named
    [feature.leaf] with its subtree named below it.  (Renaming is in place:
    an object has one name, that of its latest attachment.) *)
Theorem defineFeature_names (s : state) (feature : string) (subfeatures : Props) :
  NoDup (refsOfProps subfeatures) ->
  (forall a, a ∈ refsOfProps subfeatures -> a < length (objects s)) ->
  let o := fst (defineFeature feature subfeatures s) in
  let s' := snd (defineFeature feature subfeatures s) in
  nameOf (objects s') (ref_of o) = feature /\
  leafNameOf (objects s') (ref_of o) = feature /\
  wellNamed (objects s') o /\
  (forall earlier,
     (forall a, a ∈ refsOf earlier ->
        a < length (objects s) /\ a ∉ refsOfProps subfeatures) ->
     wellNamed (objects s) earlier ->
     wellNamed (objects s') earlier) /\
  (forall k sub, (k, Some sub) ∈ subfeatures ->
     nameOf (objects s') (ref_of sub)
       = feature +:+ "." +:+ leafNameOf (objects s') (ref_of sub) /\
     wellNamed (objects s') sub).
Proof.
  intros Hnd Hvalid. cbv zeta.
  change (objects (snd (defineFeature feature subfeatures s)))
    with (prefixFeatureName feature subfeatures
            (objects s ++ [ Cell feature feature None ])).
  change (ref_of (fst (defineFeature feature subfeatures s)))
    with (length (objects s)).
  change (fst (defineFeature feature subfeatures s))
    with (Feature (length (objects s)) (ownProps subfeatures)).
  set (h0 := objects s ++ [ Cell feature feature None ]).
  set (a := length (objects s)).
  assert (Hfresh : a ∉ refsOfProps subfeatures).
  { intros Ha. apply Hvalid in Ha. unfold a in Ha. lia. }
  assert (Hself : h0 !! a = Some (Cell feature feature None)).
  { unfold h0, a. by rewrite lookup_app_r, Nat.sub_diag. }
  assert (Hname0 : nameOf (prefixFeatureName feature subfeatures h0) a = feature).
  { rewrite prefixFeatureName_frame by done. unfold nameOf. by rewrite Hself. }
  destruct (prefixFeatureName_sameButNames feature subfeatures h0) as [Hlen Hsame].
  assert (Hsubs : forall k sub, (k, Some sub) ∈ subfeatures ->
            nameOf (prefixFeatureName feature subfeatures h0) (ref_of sub)
              = feature +:+ "." +:+
                leafNameOf (prefixFeatureName feature subfeatures h0) (ref_of sub) /\
            wellNamed (prefixFeatureName feature subfeatures h0) sub).
  { intros k sub Hin.
    destruct (prefixFeatureName_names subfeatures) with feature h0 k sub
      as [Hsubname Hwn]; try done.
    + intros k' sub' _ f h. apply prefixOne_names.
    + intros i Hi. unfold h0. rewrite length_app. apply Hvalid in Hi. lia.
    + split; [|done]. rewrite Hsubname. by destruct (Hsame (ref_of sub)) as [-> _]. }
  split_and!.
  - done.
  - destruct (Hsame a) as [-> _]. unfold leafNameOf. by rewrite Hself.
  - constructor. intros k sub Hin. fold a. rewrite Hname0.
    apply (Hsubs k sub). unfold ownProps in Hin.
    by apply list_elem_of_filter in Hin as [_ Hin].
  - intros earlier Hearlier Hwn.
    apply (wellNamed_transfer earlier (objects s)); [|done].
    intros i Hi. destruct (Hearlier i Hi) as [Hlt Hni].
    assert (Hi0 : h0 !! i = objects s !! i) by (by apply lookup_app_l).
    split.
    + rewrite prefixFeatureName_frame by done. unfold nameOf. by rewrite Hi0.
    + destruct (Hsame i) as [-> _]. unfold leafNameOf. by rewrite Hi0.
  - exact Hsubs.
Qed.

Lemma defineFeature_names_witness :
  let o := fst (defineFeature "p2" [ ("S", Some (sharedLeaf.1.1)) ] sharedLeaf.2) in
  let s' := snd (defineFeature "p2" [ ("S", Some (sharedLeaf.1.1)) ] sharedLeaf.2) in
  nameOf (objects s') (ref_of o) = "p2" /\ wellNamed (objects s') o.
Proof.
  destruct (defineFeature_names sharedLeaf.2 "p2" [ ("S", Some (sharedLeaf.1.1)) ])
    as (Hname & _ & Hwn & _).
  - apply (bool_decide_unpack _). by vm_compute.
  - intros a Ha. change (a ∈ [ 0 ]) in Ha.
    apply list_elem_of_singleton in Ha as ->. simpl. lia.
  - by split.
Defined.

(** C6, counterexample.  A leaf attached under [p1] and then under [p2] is
    named [p2.s]; seen through [p1], whose name is [p1], the invariant is
    broken by the second attachment. *)
Lemma builder_as_stated_fails :
  (let s' := snd (defineFeature "p2" [ ("S", Some (sharedLeaf.1.1)) ] sharedLeaf.2) in
   sharedLeaf.1.2 = Feature 1 [ ("S", Some (Feature 0 [])) ] /\
   nameOf (objects sharedLeaf.2) 0 = "p1.s" /\
   nameOf (objects s') 1 = "p1" /\
   leafNameOf (objects s') 0 = "s" /\
   nameOf (objects s') 0 = "p2.s") /\
  ~ builder_as_stated.
Proof.
  split; [by vm_compute|].
  intros H.
  destruct (H sharedLeaf.2 "p2" [ ("S", Some (sharedLeaf.1.1)) ]) as [_ Hkeep].
  { intros a Ha. change (a ∈ [ 0 ]) in Ha.
    apply list_elem_of_singleton in Ha as ->. simpl. lia. }
  specialize (Hkeep sharedLeaf.1.2).
  assert (Hbad : wellNamed
            (objects (snd (defineFeature "p2" [ ("S", Some (sharedLeaf.1.1)) ]
                                         sharedLeaf.2)))
            sharedLeaf.1.2).
  { apply Hkeep.
    - intros a Ha. change (a ∈ [ 1; 0 ]) in Ha.
      apply elem_of_cons in Ha as [->|Ha]; [simpl; lia|].
      apply list_elem_of_singleton in Ha as ->. simpl. lia.
    - constructor. intros k sub Hin.
      apply list_elem_of_singleton in Hin. injection Hin as -> ->.
      split; [reflexivity|]. constructor. intros k' sub' Hin'.
      by apply elem_of_nil in Hin'. }
  inversion Hbad as [a props Hsub Heq]; subst.
  destruct (Hsub "S" (Feature 0 [])) as [Hname _]; [by left|].
  vm_compute in Hname. discriminate Hname.
Qed.

(** ** Registering twice *)

Section Reregistration.

Lemma registerOne_unfold h a props r :
  registerOne h (Feature a props) r = register h props (reg_set (nameOf h a) a r).
Proof. reflexivity. Qed.

Lemma registerOne_names o :
  forall h h' r,
    (forall i, nameOf h' i = nameOf h i) ->
    registerOne h' o r = registerOne h o r.
Proof.
  induction o as [a props IH] using FeatureObject_ind. intros h h' r Hn.
  rewrite !registerOne_unfold, Hn.
  generalize (reg_set (nameOf h a) a r). clear r.
  induction props as [|[k [c|]] props IHprops]; intros r; [done| |]; simpl.
  - rewrite (IH k c) with (h := h) by (done || by left).
    apply IHprops. intros k' sub Hin. apply (IH k' sub). by right.
  - apply IHprops. intros k' sub Hin. apply (IH k' sub). by right.
Qed.

Lemma register_names props h h' r :
  (forall i, nameOf h' i = nameOf h i) ->
  register h' props r = register h props r.
Proof.
  intros Hn. revert r.
  induction props as [|[k [c|]] props IHprops]; intros r; [done| |]; simpl.
  - rewrite (registerOne_names c h h') by done. apply IHprops.
  - apply IHprops.
Qed.

Lemma sameNames_refl s : sameNames s s.
Proof. by split. Qed.

Lemma sameNames_trans s1 s2 s3 :
  sameNames s1 s2 -> sameNames s2 s3 -> sameNames s1 s3.
Proof.
  intros [Hr1 Hn1] [Hr2 Hn2]. split; [congruence|].
  intros i. by rewrite Hn2, Hn1.
Qed.

Lemma loadOne_sameNames s d : sameNames s (loadOne s d).
Proof.
  split; [apply loadOne_registry|]. intros i.
  destruct d; simpl; try done.
  - apply nameOf_setEnabled.
  - destruct (reg_get (featureRegistry s) name); [apply nameOf_setEnabled|done].
Qed.

Lemma fold_loadOne_sameNames ds s : sameNames s (fold_left loadOne ds s).
Proof.
  revert s. induction ds as [|d ds IH]; intros s; [apply sameNames_refl|].
  simpl. eapply sameNames_trans; [apply loadOne_sameNames|apply IH].
Qed.

Lemma getFeature_sameNames s s' t :
  sameNames s s' -> getFeature t s' = getFeature t s.
Proof.
  intros [Hr Hn]. unfold getFeature, asDisabled. rewrite Hr.
  destruct (Js.startsWith "-" t); [|done].
  destruct (reg_get (featureRegistry s) (Js.slice1 t)); [|done]. by rewrite Hn.
Qed.

Lemma resolveNames_sameNames s s' names :
  sameNames s s' -> resolveNames names s' = resolveNames names s.
Proof.
  intros Hs. induction names as [|n names IH]; [done|].
  simpl. rewrite IH, (getFeature_sameNames s s' n Hs).
  unfold notFoundMessage. by rewrite (proj1 Hs).
Qed.

Lemma topLevelDisabled_sameNames s s' :
  sameNames s s' -> topLevelDisabled s' = topLevelDisabled s.
Proof.
  intros [Hr Hn]. unfold topLevelDisabled, asDisabled, name_. rewrite Hr.
  induction (reg_values (featureRegistry s)) as [|a l IH]; [done|].
  rewrite !filter_cons, Hn.
  case_decide; simpl; by rewrite ?Hn, IH.
Qed.

Lemma directivesOf_sameNames text s s' :
  sameNames s s' -> directivesOf text s' = directivesOf text s.
Proof.
  intros Hs. unfold directivesOf.
  by rewrite (topLevelDisabled_sameNames s s'), (resolveNames_sameNames s s').
Qed.

(** The load is the application, in order, of its directives. *)
Lemma loadFeaturesFromString_directives text s :
  loadFeaturesFromString text s
  = (outcomeOf text s, fold_left loadOne (directivesOf text s) s).
Proof.
  unfold loadFeaturesFromString, outcomeOf, directivesOf, disableAll, loadFeatures.
  destruct (existsb _ _); simpl.
  - rewrite (resolveNames_sameNames s _ _ (fold_loadOne_sameNames _ s)).
    rewrite fold_left_app.
    by destruct (resolveNames (featureNamesOf text) s).
  - by destruct (resolveNames (featureNamesOf text) s).
Qed.

Lemma fold_loadOne_writes ds s :
  fold_left loadOne ds s
  = State (applyWrites (omap (writeOf (featureRegistry s)) ds) (objects s))
          (featureRegistry s).
Proof.
  revert s. induction ds as [|d ds IH]; intros s; [by destruct s|].
  simpl. rewrite IH, loadOne_registry. f_equal.
  destruct d; simpl; try done.
  by destruct (reg_get (featureRegistry s) name).
Qed.

Lemma lookup_applyWrites ws h i :
  applyWrites ws h !! i =
    match lastWrite ws i with
    | Some b =>
        (fun c => Cell (symFeatureName c) (symFeatureLeafName c) (Some b))
          <$> h !! i
    | None => h !! i
    end.
Proof.
  revert h. induction ws as [|[a b0] ws IH]; intros h; [done|].
  unfold applyWrites in *. simpl. rewrite IH, lookup_setEnabled.
  destruct (lastWrite ws i), (h !! i); repeat case_decide; simpl in *; by subst.
Qed.

Lemma applyWrites_idempotent ws h :
  applyWrites ws (applyWrites ws h) = applyWrites ws h.
Proof.
  apply list_eq. intros i. rewrite !lookup_applyWrites.
  destruct (lastWrite ws i); [|done]. by destruct (h !! i).
Qed.

Lemma loadFeaturesFromString_idempotent text s :
  loadFeaturesFromString text (snd (loadFeaturesFromString text s))
  = loadFeaturesFromString text s.
Proof.
  rewrite !loadFeaturesFromString_directives. simpl.
  pose proof (fold_loadOne_sameNames (directivesOf text s) s) as Hs.
  unfold outcomeOf. rewrite (resolveNames_sameNames s _ _ Hs).
  rewrite (directivesOf_sameNames text s _ Hs). f_equal.
  rewrite (fold_loadOne_writes _ (fold_left _ _ _)).
  rewrite (proj1 Hs). rewrite (fold_loadOne_writes _ s). simpl.
  by rewrite applyWrites_idempotent.
Qed.

Lemma loadFeaturesFromString_sameNames text s :
  sameNames s (snd (loadFeaturesFromString text s)).
Proof.
  rewrite loadFeaturesFromString_directives. apply fold_loadOne_sameNames.
Qed.

Lemma registerFeatures_registry forest options env s :
  featureRegistry (snd (registerFeatures forest options env s))
  = register (objects s) forest
      (if override options then [] else featureRegistry s) /\
  forall i, nameOf (objects (snd (registerFeatures forest options env s))) i
            = nameOf (objects s) i.
Proof.
  unfold registerFeatures. destruct (parsesEnv (parseEnv options)); [|done].
  destruct (loadFeaturesFromString_sameNames
              (envFeatures (parseEnv options) env)
              (State (objects s)
                 (register (objects s) forest
                    (if override options then [] else featureRegistry s))))
    as [Hr Hn].
  by split.
Qed.

(** The outcome of a load depends on registry and names only. *)
Lemma outcomeOf_sameNames text s s' :
  sameNames s s' -> outcomeOf text s' = outcomeOf text s.
Proof.
  intros Hs. unfold outcomeOf. by rewrite (resolveNames_sameNames s s').
Qed.

End Reregistration.

(** ** The registry invariant holds in every reachable state *)

Section Invariant.

Lemma includes_dot_append f x : Js.includes "." (f +:+ "." +:+ x) = true.
Proof.
  induction f as [|c f IH]; [done|].
  simpl. rewrite IH. apply orb_true_r.
Qed.

(** A renamed object is no longer root-level. *)
Lemma prefixOne_renamed o :
  forall feature h i,
    nameOf (prefixOne feature o h) i = nameOf h i \/
    Js.includes "." (nameOf (prefixOne feature o h) i) = true.
Proof.
  induction o as [a props IH] using FeatureObject_ind. intros feature h i.
  rewrite prefixOne_unfold.
  set (prefixed := feature +:+ "." +:+ leafNameOf h a).
  assert (Hset : nameOf (setName a prefixed h) i = nameOf h i \/
                 Js.includes "." (nameOf (setName a prefixed h) i) = true).
  { rewrite nameOf_setName. case_decide; [right|by left].
    apply includes_dot_append. }
  revert Hset. generalize (setName a prefixed h). intros h1 Hset.
  assert (Hfold : nameOf (prefixFeatureName prefixed props h1) i = nameOf h1 i \/
                  Js.includes "." (nameOf (prefixFeatureName prefixed props h1) i) = true).
  { apply (prefixFeatureName_fold
             (fun h h' => nameOf h' i = nameOf h i \/
                          Js.includes "." (nameOf h' i) = true)).
    - by left.
    - intros h2 h3 h4 [H23|H23] [H34|H34]; rewrite ?H34; auto.
    - intros k sub Hin f h0. by apply (IH k sub). }
  destruct Hfold as [Hfold|Hfold]; [rewrite Hfold|]; auto.
Qed.

Lemma prefixFeatureName_renamed feature props h i :
  nameOf (prefixFeatureName feature props h) i = nameOf h i \/
  Js.includes "." (nameOf (prefixFeatureName feature props h) i) = true.
Proof.
  apply (prefixFeatureName_fold
           (fun h h' => nameOf h' i = nameOf h i \/
                        Js.includes "." (nameOf h' i) = true)).
  - by left.
  - intros h2 h3 h4 [H23|H23] [H34|H34]; rewrite ?H34; auto.
  - intros k sub Hin f h0. apply prefixOne_renamed.
Qed.

Lemma registry_ok_defineFeature s feature subfeatures :
  registry_ok s -> registry_ok (snd (defineFeature feature subfeatures s)).
Proof.
  intros [Hnd Hent]. split; [done|]. simpl.
  set (h0 := objects s ++ [ Cell feature feature None ]).
  intros k a Hin. destruct (Hent k a Hin) as [Hlt Hroot].
  destruct (prefixFeatureName_sameButNames feature subfeatures h0) as [Hlen _].
  split.
  - rewrite Hlen. unfold h0. rewrite length_app. lia.
  - unfold rootLevel. intros Hr.
    destruct (prefixFeatureName_renamed feature subfeatures h0 a) as [Hsame|Hdot];
      [|congruence].
    rewrite Hsame in *.
    assert (Hn : nameOf h0 a = nameOf (objects s) a).
    { unfold nameOf, h0. by rewrite lookup_app_l. }
    rewrite Hn in *. by apply Hroot.
Qed.

Lemma reg_keys_reg_set k v r :
  NoDup (reg_keys r) -> NoDup (reg_keys (reg_set k v r)).
Proof.
  unfold reg_keys. induction r as [|[k' v'] r IH]; simpl; intros Hnd.
  - apply NoDup_singleton.
  - apply NoDup_cons in Hnd as [Hk' Hnd].
    destruct (String.eqb_spec k' k) as [->|Hne]; simpl.
    + by apply NoDup_cons.
    + apply NoDup_cons. split; [|by apply IH].
      intros Hin. apply Hk'. clear IH Hk' Hnd.
      induction r as [|[k'' v''] r IH]; simpl in *.
      * apply list_elem_of_singleton in Hin. congruence.
      * destruct (String.eqb_spec k'' k) as [->|Hne']; simpl in *.
        -- done.
        -- apply elem_of_cons in Hin as [->|Hin]; [by left|right; by apply IH].
Qed.

Lemma elem_of_reg_set k v r k' v' :
  (k', v') ∈ reg_set k v r -> (k', v') = (k, v) \/ (k', v') ∈ r.
Proof.
  induction r as [|[k0 v0] r IH]; simpl.
  - intros Hin%list_elem_of_singleton. by left.
  - destruct (String.eqb_spec k0 k) as [->|Hne].
    + intros [Heq|Hin]%elem_of_cons; [by left|right; by right].
    + intros [Heq|Hin]%elem_of_cons; [right; rewrite Heq; by left|].
      destruct (IH Hin); [by left|right; by right].
Qed.

(** The invariant on a registry against a fixed store. *)
Lemma registerOne_ok o :
  forall h r,
    (forall a, a ∈ refsOf o -> a < length h) ->
    registry_ok (State h r) -> registry_ok (State h (registerOne h o r)).
Proof.
  induction o as [a props IH] using FeatureObject_ind. intros h r Hvalid Hok.
  rewrite registerOne_unfold. rewrite refsOf_unfold in Hvalid.
  assert (Hset : registry_ok (State h (reg_set (nameOf h a) a r))).
  { destruct Hok as [Hnd Hent]. split; simpl in *.
    - by apply reg_keys_reg_set.
    - intros k x [Heq|Hin]%elem_of_reg_set; [|by apply Hent].
      injection Heq as -> ->. split; [|done]. apply Hvalid. by left. }
  assert (Hprops : forall i, i ∈ refsOfProps props -> i < length h).
  { intros i Hi. apply Hvalid. by right. }
  revert Hset Hprops. generalize (reg_set (nameOf h a) a r).
  clear r Hok Hvalid.
  induction props as [|[k [c|]] props IHprops]; intros r Hok Hvalid; simpl.
  - done.
  - apply IHprops.
    + intros k' sub Hin. apply (IH k' sub). by right.
    + apply (IH k c); [by left| |done].
      intros i Hi. apply Hvalid, elem_of_refsOfProps. exists k, c.
      split; [by left|done].
    + intros i Hi. apply Hvalid.
      apply elem_of_refsOfProps in Hi as (k' & sub & Hin & Hi).
      apply elem_of_refsOfProps. exists k', sub. split; [by right|done].
  - apply IHprops; [|done|].
    + intros k' sub Hin. apply (IH k' sub). by right.
    + intros i Hi. apply Hvalid.
      apply elem_of_refsOfProps in Hi as (k' & sub & Hin & Hi).
      apply elem_of_refsOfProps. exists k', sub. split; [by right|done].
Qed.

Lemma register_ok props h r :
  (forall a, a ∈ refsOfProps props -> a < length h) ->
  registry_ok (State h r) -> registry_ok (State h (register h props r)).
Proof.
  revert r. induction props as [|[k [c|]] props IH]; intros r Hvalid Hok; simpl.
  - done.
  - apply IH.
    + intros i Hi. apply Hvalid.
      apply elem_of_refsOfProps in Hi as (k' & sub & Hin & Hi).
      apply elem_of_refsOfProps. exists k', sub. split; [by right|done].
    + apply registerOne_ok; [|done].
      intros i Hi. apply Hvalid, elem_of_refsOfProps. exists k, c.
      split; [by left|done].
  - apply IH; [|done].
    intros i Hi. apply Hvalid.
    apply elem_of_refsOfProps in Hi as (k' & sub & Hin & Hi).
    apply elem_of_refsOfProps. exists k', sub. split; [by right|done].
Qed.

(** The invariant does not read explicit states. *)
Lemma registry_ok_sameNames s s' :
  sameNames s s' -> length (objects s') = length (objects s) ->
  registry_ok s -> registry_ok s'.
Proof.
  intros [Hr Hn] Hlen [Hnd Hent]. split; rewrite Hr; [done|].
  intros k a Hin. unfold rootLevel. rewrite Hn, Hlen. by apply Hent.
Qed.

Lemma length_setEnabled a e h : length (setEnabled a e h) = length h.
Proof. apply length_alter. Qed.

Lemma loadOne_length s d : length (objects (loadOne s d)) = length (objects s).
Proof.
  destruct d; simpl; try done.
  - apply length_setEnabled.
  - destruct (reg_get (featureRegistry s) name); [apply length_setEnabled|done].
Qed.

Lemma fold_loadOne_length ds s :
  length (objects (fold_left loadOne ds s)) = length (objects s).
Proof.
  revert s. induction ds as [|d ds IH]; intros s; [done|].
  simpl. by rewrite IH, loadOne_length.
Qed.

Lemma clearEnabled_sameNames s :
  sameNames s (clearEnabled s) /\
  length (objects (clearEnabled s)) = length (objects s).
Proof.
  unfold clearEnabled. simpl.
  generalize (reg_values (featureRegistry s)). intros l.
  split; [split; [done|]|]; simpl.
  - intros i. apply nameOf_fold_setEnabled.
  - revert s. induction l as [|a l IH]; intros s; [done|].
    simpl. specialize (IH (State (setEnabled a None (objects s)) (featureRegistry s))).
    simpl in IH. by rewrite IH, length_setEnabled.
Qed.

Lemma registry_ok_loadFeatures ds ov s :
  registry_ok s -> registry_ok (loadFeatures ds ov s).
Proof.
  intros Hok. unfold loadFeatures.
  apply (registry_ok_sameNames (if ov then clearEnabled s else s)).
  - apply fold_loadOne_sameNames.
  - apply fold_loadOne_length.
  - destruct ov; [|done].
    destruct (clearEnabled_sameNames s) as [Hs Hl].
    by apply (registry_ok_sameNames s).
Qed.

Lemma registry_ok_loadFeaturesFromString text s :
  registry_ok s -> registry_ok (snd (loadFeaturesFromString text s)).
Proof.
  intros Hok. rewrite loadFeaturesFromString_directives. simpl.
  apply (registry_ok_sameNames s); [apply fold_loadOne_sameNames| |done].
  apply fold_loadOne_length.
Qed.

Lemma registry_ok_registerFeatures forest options env s :
  (forall a, a ∈ refsOfProps forest -> a < length (objects s)) ->
  registry_ok s -> registry_ok (snd (registerFeatures forest options env s)).
Proof.
  intros Hvalid Hok. unfold registerFeatures.
  assert (Hreg : registry_ok
            (State (objects s)
               (register (objects s) forest
                  (if override options then [] else featureRegistry s)))).
  { apply register_ok; [done|]. destruct (override options); [|by destruct s].
    split; simpl; [apply NoDup_nil_2|]. intros k a Hin.
    by apply elem_of_nil in Hin. }
  destruct (parsesEnv (parseEnv options)); [|done].
  by apply registry_ok_loadFeaturesFromString.
Qed.

Lemma registry_ok_setEnabled a e s :
  registry_ok s ->
  registry_ok (State (setEnabled a e (objects s)) (featureRegistry s)).
Proof.
  apply registry_ok_sameNames; [|apply length_setEnabled].
  split; [done|]. intros i. apply nameOf_setEnabled.
Qed.

(** X17.  Every state the library produces satisfies the registry invariant:
    no key twice, every registered reference denotes an object of the store,
    and an object with a dot-free name is filed under that name. *)
Lemma reachable_registry_ok s : reachable s -> registry_ok s.
Proof.
  induction 1.
  - split; simpl; [apply NoDup_nil_2|]. intros k a Hin.
    by apply elem_of_nil in Hin.
  - by apply registry_ok_defineFeature.
  - by apply registry_ok_registerFeatures.
  - by apply registry_ok_loadFeaturesFromString.
  - by apply registry_ok_loadFeatures.
  - by apply registry_ok_setEnabled.
  - by apply registry_ok_setEnabled.
Qed.

End Invariant.

(** ** The scenarios of [tests.spec.ts] *)

Section TestSuite.

(** "Features start enabled by default" *)
Example test_start_enabled :
  statesOf fresh [ 1; 7; 0; 2; 6 ] = [ true; true; true; true; true ].
Proof. by vm_compute. Qed.

(** "Features can be disabled" *)
Example test_can_be_disabled :
  statesOf (disable 1 fresh) [ 1; 7 ] = [ false; true ].
Proof. by vm_compute. Qed.

(** "Children inherit the parent's state" *)
Example test_children_inherit :
  statesOf (disable 1 fresh) [ 0; 2; 6 ] = [ false; true; true ] /\
  statesOf (disable 7 (disable 1 fresh)) [ 0; 2; 6 ] = [ false; false; false ].
Proof. by vm_compute. Qed.

(** "Children can be enabled regardless of the parent's state" *)
Example test_children_override :
  let s1 := disable 7 fresh in
  let s2 := enable 2 s1 in
  let s3 := enable 6 s2 in
  let s4 := disable 5 (disable 3 s3) in
  statesOf s1 [ 2; 6 ] = [ false; false ] /\
  statesOf s2 [ 2; 6; 3; 4; 5 ] = [ true; false; false; false; false ] /\
  statesOf s3 [ 6; 3; 4; 5 ] = [ true; true; true; true ] /\
  statesOf s4 [ 6; 3; 4; 5 ] = [ true; false; true; false ].
Proof. by vm_compute. Qed.

(** "Features can be disabled by prefixing with a dash" *)
Example test_env_dash :
  fst (makeTestFeatures "-one,-two" emptyState) = Returned /\
  statesOf (snd (makeTestFeatures "-one,-two" emptyState)) [ 1; 7 ]
  = [ false; false ].
Proof. by vm_compute. Qed.

(** "All features can be disabled with '-*'" *)
Example test_env_wildcard :
  statesOf (snd (makeTestFeatures "-*" emptyState)) [ 1; 7 ] = [ false; false ].
Proof. by vm_compute. Qed.

(** "Disabling all features, but enabling selected features" *)
Example test_env_wildcard_then_enable :
  statesOf (snd (makeTestFeatures "-*,two.two" emptyState)) [ 1; 7; 2; 6; 3; 4; 5 ]
  = [ false; false; false; true; true; true; true ].
Proof. by vm_compute. Qed.

(** The older copy fails "Children inherit the parent's state": the reads
    before [Two.$disable()] have stored [true] in [two.one] and [two.two]. *)
Example test_children_inherit_legacy :
  let s1 := disable 1 fresh in
  let s2 := snd (Legacy.isFeatureEnabled 0 s1) in
  let s3 := snd (Legacy.isFeatureEnabled 2 s2) in
  let s4 := snd (Legacy.isFeatureEnabled 6 s3) in
  let s5 := disable 7 s4 in
  fst (Legacy.isFeatureEnabled 2 s5) = true /\
  fst (Legacy.isFeatureEnabled 6 s5) = true.
Proof. by vm_compute. Qed.

End TestSuite.

(** * Further properties of the library *)

(** ** Tokens of a configuration string *)

Section Tokens.

Lemma everyChar_trimStart P s :
  everyChar P s = true -> everyChar P (Js.trimStart s) = true.
Proof.
  induction s as [|c s IH]; [done|]. simpl. intros [Hc Hs]%andb_prop.
  destruct (Js.isWhiteSpace c); [by apply IH|]. simpl. by rewrite Hc, Hs.
Qed.

Lemma everyChar_trimEnd P s :
  everyChar P s = true -> everyChar P (Js.trimEnd s) = true.
Proof.
  induction s as [|c s IH]; [done|]. simpl. intros [Hc Hs]%andb_prop.
  specialize (IH Hs). destruct (Js.trimEnd s).
  - destruct (Js.isWhiteSpace c); [done|]. simpl. by rewrite Hc.
  - change (everyChar P (String c (String a s0)))
      with (P c && everyChar P (String a s0)). by rewrite Hc, IH.
Qed.

Lemma everyChar_trim P s : everyChar P s = true -> everyChar P (Js.trim s) = true.
Proof. intros H. by apply everyChar_trimEnd, everyChar_trimStart. Qed.

Lemma splitRuns_pieces inRun s :
  Forall (fun p => everyChar notSeparator p = true) (Js.splitRuns inRun s).
Proof.
  revert inRun. induction s as [|c s IH]; intros inRun; simpl.
  - by constructor.
  - destruct (Js.isSeparator c) eqn:Hc.
    + destruct inRun; [apply IH|]. constructor; [done|apply IH].
    + specialize (IH false). destruct (Js.splitRuns false s) as [|x r].
      * constructor; [|done]. simpl. unfold notSeparator at 1. by rewrite Hc.
      * apply Forall_cons in IH as [Hx Hr]. constructor; [|done].
        simpl. unfold notSeparator at 1. by rewrite Hc.
Qed.

Lemma trimEnd_idempotent s : Js.trimEnd (Js.trimEnd s) = Js.trimEnd s.
Proof.
  induction s as [|c s IH]; [done|]. simpl.
  destruct (Js.trimEnd s) as [|d t] eqn:Ht.
  - destruct (Js.isWhiteSpace c) eqn:Hc; [done|]. simpl. by rewrite Hc.
  - change (Js.trimEnd (String c (String d t)))
      with (match Js.trimEnd (String d t) with
            | EmptyString =>
                if Js.isWhiteSpace c then EmptyString else String c EmptyString
            | t' => String c t'
            end).
    by rewrite IH.
Qed.

Lemma trimStart_fixed s :
  match s with
  | String c _ => Js.isWhiteSpace c = false
  | EmptyString => True
  end -> Js.trimStart s = s.
Proof. destruct s as [|c s]; [done|]. simpl. by intros ->. Qed.

Lemma trimStart_head s :
  match Js.trimStart s with
  | String c _ => Js.isWhiteSpace c = false
  | EmptyString => True
  end.
Proof.
  induction s as [|c s IH]; [done|]. simpl.
  destruct (Js.isWhiteSpace c) eqn:Hc; [done|]. done.
Qed.

Lemma trimEnd_head s :
  match s with
  | String c _ => Js.isWhiteSpace c = false
  | EmptyString => True
  end ->
  match Js.trimEnd s with
  | String c _ => Js.isWhiteSpace c = false
  | EmptyString => True
  end.
Proof.
  destruct s as [|c s]; [done|]. simpl. intros Hc.
  destruct (Js.trimEnd s); [by rewrite Hc|done].
Qed.

Lemma trim_idempotent s : Js.trim (Js.trim s) = Js.trim s.
Proof.
  unfold Js.trim.
  rewrite (trimStart_fixed (Js.trimEnd (Js.trimStart s))).
  - apply trimEnd_idempotent.
  - apply trimEnd_head, trimStart_head.
Qed.

Lemma trimStart_blank s : everyChar Js.isWhiteSpace s = true -> Js.trimStart s = "".
Proof.
  induction s as [|c s IH]; [done|]. simpl.
  intros [Hc Hs]%andb_prop. rewrite Hc. by apply IH.
Qed.

Lemma elem_of_featureNamesOf t text :
  t ∈ featureNamesOf text <->
  t <> "" /\ exists p, p ∈ Js.splitRuns false text /\ t = Js.trim p.
Proof.
  unfold featureNamesOf. rewrite list_elem_of_filter.
  change (map ?f ?l) with (f <$> l). rewrite list_elem_of_fmap.
  split.
  - intros [Ht (p & -> & Hp)]. split; [|by exists p].
    intros Heq. by rewrite Heq in Ht.
  - intros [Ht (p & Hp & ->)]. split; [|by exists p].
    by destruct (Js.trim p).
Qed.

End Tokens.

(** X1.  The names a configuration string is cut into are never empty,
    contain no comma, line feed or space, and carry no white space at either
    end. *)
Theorem featureNamesOf_clean (text t : string) :
  t ∈ featureNamesOf text ->
  t <> "" /\ everyChar notSeparator t = true /\ Js.trim t = t.
Proof.
  intros [Ht (p & Hp & ->)]%elem_of_featureNamesOf. split_and!.
  - done.
  - apply everyChar_trim.
    pose proof (splitRuns_pieces false text) as Hall.
    rewrite Forall_forall in Hall. by apply Hall.
  - apply trim_idempotent.
Qed.

Lemma featureNamesOf_clean_witness :
  "two.two" <> "" /\ everyChar notSeparator "two.two" = true /\
  Js.trim "two.two" = "two.two".
Proof.
  apply (featureNamesOf_clean "-*, two.two" "two.two").
  apply (bool_decide_unpack _). by vm_compute.
Defined.

Section BlankText.

Lemma splitRuns_blank inRun s :
  everyChar blank s = true ->
  Forall (fun p => everyChar Js.isWhiteSpace p = true) (Js.splitRuns inRun s).
Proof.
  revert inRun. induction s as [|c s IH]; intros inRun; simpl.
  - by constructor.
  - intros [Hc Hs]%andb_prop. destruct (Js.isSeparator c) eqn:Hsep.
    + destruct inRun; [by apply IH|]. constructor; [done|by apply IH].
    + assert (Hw : Js.isWhiteSpace c = true).
      { unfold blank in Hc. by rewrite Hsep in Hc. }
      specialize (IH false Hs). destruct (Js.splitRuns false s) as [|x r].
      * constructor; [|done]. simpl. by rewrite Hw.
      * apply Forall_cons in IH as [Hx Hr]. constructor; [|done].
        simpl. by rewrite Hw, Hx.
Qed.

Lemma featureNamesOf_blank text :
  everyChar blank text = true -> featureNamesOf text = [].
Proof.
  intros Hb. unfold featureNamesOf.
  pose proof (splitRuns_blank false text Hb) as Hall.
  induction Hall as [|p l Hp Hl IH]; [done|].
  simpl. rewrite filter_cons, IH.
  unfold Js.trim. by rewrite (trimStart_blank p Hp).
Qed.

End BlankText.

(** X2.  A configuration string made only of commas, line feeds, spaces and
    other white space names nothing: the load returns and leaves the state
    as it was. *)
Theorem loadFeaturesFromString_blank (text : string) (s : state) :
  everyChar blank text = true ->
  loadFeaturesFromString text s = (Returned, s).
Proof.
  intros Hb. unfold loadFeaturesFromString.
  by rewrite (featureNamesOf_blank text Hb).
Qed.

Lemma loadFeaturesFromString_blank_witness :
  loadFeaturesFromString (String "009" " , ,, ") declared = (Returned, declared).
Proof.
  apply (loadFeaturesFromString_blank (String "009" " , ,, ") declared).
  reflexivity.
Defined.

(** ** The per-name pass *)

Section PerName.

Lemma existsb_wildcard_star names :
  existsb (String.eqb "-*") (filter (fun n => n <> "*") names)
  = existsb (String.eqb "-*") names.
Proof.
  induction names as [|n names IH]; [done|].
  rewrite filter_cons. case_decide as Hn; cbn [existsb]; rewrite IH; [done|].
  by subst n.
Qed.

Lemma resolveNames_filter_star names s :
  resolveNames (filter (fun n => n <> "*") names) s = resolveNames names s.
Proof.
  induction names as [|n names IH]; [done|].
  rewrite filter_cons. case_decide as Hn.
  - simpl. by rewrite IH.
  - subst n. simpl. apply IH.
Qed.

Lemma resolveNames_known names s :
  (forall t, t ∈ names -> ~ unknownName s t) ->
  exists l, resolveNames names s = inr l.
Proof.
  induction names as [|n names IH]; intros Hknown; [by exists []|].
  destruct IH as [l Hl]. { intros t Ht. apply Hknown. by right. }
  simpl. rewrite Hl.
  destruct (String.eqb_spec n "*") as [->|Hstar]; [by exists l|].
  destruct (String.eqb_spec n "-*") as [->|Hwild]; [by exists l|].
  simpl. destruct (getFeature n s) eqn:Hget; try by eexists.
  destruct (Hknown n); [by left|done].
Qed.

Lemma resolveNames_last pre t s l :
  t <> "*" -> t <> "-*" ->
  resolveNames (pre ++ [ t ]) s = inr l ->
  exists l', l = l' ++ [ getFeature t s ] /\ resolveNames pre s = inr l'.
Proof.
  intros Hstar Hwild. revert l. induction pre as [|n pre IH]; intros l; simpl.
  - apply String.eqb_neq in Hstar, Hwild. rewrite Hstar, Hwild. simpl.
    destruct (getFeature t s) eqn:Hget; intros Hl; simplify_eq; by exists [].
  - destruct (String.eqb n "*" || String.eqb n "-*"); [apply IH|].
    destruct (getFeature n s) eqn:Hget;
      destruct (resolveNames (pre ++ [ t ]) s) as [msg|l0] eqn:Hrest;
      intros Hl; simplify_eq;
      destruct (IH l0 eq_refl) as (l' & -> & ->); by eexists (_ :: l').
Qed.

Lemma reg_get_in r k a : reg_get r k = Some a -> a ∈ reg_values r.
Proof.
  induction r as [|[k' a'] r IH]; simpl; [done|].
  destruct (String.eqb k' k); intros H; [simplify_eq; by left|].
  right. by apply IH.
Qed.

(** Every assignment of the per-name pass and of the wildcard pass is to a
    registered object. *)
Lemma writeOf_registered r d a b :
  (forall x, d = VFeature x -> x ∈ reg_values r) ->
  writeOf r d = Some (a, b) -> a ∈ reg_values r.
Proof.
  intros Hd. destruct d; simpl; try done.
  - intros H. simplify_eq. by apply Hd.
  - destruct (reg_get r name) eqn:Hn; [|done].
    intros H. simplify_eq. by eapply reg_get_in.
Qed.

Lemma getFeature_registered t s x :
  getFeature t s = VFeature x -> x ∈ reg_values (featureRegistry s).
Proof.
  unfold getFeature, asDisabled. destruct (Js.startsWith "-" t).
  - by destruct (reg_get (featureRegistry s) (Js.slice1 t)).
  - destruct (reg_get (featureRegistry s) t) eqn:Ht; [|done].
    intros H. simplify_eq. by eapply reg_get_in.
Qed.

Lemma resolveNames_registered names s l :
  resolveNames names s = inr l ->
  Forall (fun d => forall x, d = VFeature x -> x ∈ reg_values (featureRegistry s)) l.
Proof.
  revert l. induction names as [|n names IH]; intros l; simpl.
  - intros H. simplify_eq. constructor.
  - destruct (String.eqb n "*" || String.eqb n "-*"); [apply IH|].
    destruct (getFeature n s) eqn:Hget;
      destruct (resolveNames names s) as [msg|l0] eqn:Hrest;
      intros Hl; simplify_eq; (constructor; [|by apply IH]);
      intros x Hx; simplify_eq. by eapply getFeature_registered.
Qed.

Lemma directivesOf_registered text s :
  Forall (fun d => forall x, d = VFeature x -> x ∈ reg_values (featureRegistry s))
         (directivesOf text s).
Proof.
  unfold directivesOf. apply Forall_app. split.
  - destruct (existsb _ _); [|constructor].
    unfold topLevelDisabled, asDisabled. apply Forall_forall.
    intros d Hd. change (map ?f ?l) with (f <$> l) in Hd.
    apply list_elem_of_fmap in Hd as (a & -> & _). done.
  - destruct (resolveNames (featureNamesOf text) s) eqn:Hres; [constructor|].
    by eapply resolveNames_registered.
Qed.

Lemma lastWrite_in ws i b : lastWrite ws i = Some b -> i ∈ map fst ws.
Proof.
  induction ws as [|w ws IH]; simpl; [done|].
  destruct (lastWrite ws i); [intros H; right; by apply IH|].
  case_decide; [|done]. intros _. subst. by left.
Qed.

Lemma omap_writeOf_registered r ds :
  Forall (fun d => forall x, d = VFeature x -> x ∈ reg_values r) ds ->
  forall a, a ∈ map fst (omap (writeOf r) ds) -> a ∈ reg_values r.
Proof.
  induction 1 as [|d ds Hd Hds IH]; intros a; simpl.
  - intros Ha. by apply elem_of_nil in Ha.
  - destruct (writeOf r d) as [[x b]|] eqn:Hw; [|apply IH].
    simpl. intros [->|Ha]%elem_of_cons; [|by apply IH].
    by eapply writeOf_registered.
Qed.

End PerName.

(** X3.  The token ["*"] is inert: a configuration string and the same
    string without its ["*"] tokens load alike, whether or not a flag is
    registered under the name ["*"]. *)
Theorem loadFeaturesFromString_star_inert (text text' : string) (s : state) :
  featureNamesOf text' = filter (fun n => n <> "*") (featureNamesOf text) ->
  loadFeaturesFromString text s = loadFeaturesFromString text' s.
Proof.
  intros Htext'. unfold loadFeaturesFromString.
  by rewrite Htext', existsb_wildcard_star, resolveNames_filter_star.
Qed.

Lemma loadFeaturesFromString_star_inert_witness :
  loadFeaturesFromString "*, a.b, *" declared
  = loadFeaturesFromString "a.b" declared.
Proof.
  apply (loadFeaturesFromString_star_inert "*, a.b, *" "a.b" declared).
  reflexivity.
Defined.

(** X4.  The load returns normally exactly when every token is ["*"],
    ["-*"] or found by [getFeature]; otherwise it throws. *)
Theorem loadFeaturesFromString_returns_iff (text : string) (s : state) :
  fst (loadFeaturesFromString text s) = Returned <->
  (forall t, t ∈ featureNamesOf text -> ~ unknownName s t).
Proof.
  rewrite loadFeaturesFromString_directives. simpl. unfold outcomeOf. split.
  - intros Hret t Hin Hunk.
    destruct (resolveNames_throws _ s t Hin Hunk) as (? & ? & ? & _ & _ & _ & Hres).
    by rewrite Hres in Hret.
  - intros Hknown. by destruct (resolveNames_known _ s Hknown) as [l ->].
Qed.

(** X5.  Whatever its outcome, the load keeps the registry, the size of the
    store, every name and leaf name; and it never changes the explicit state
    of an object that is not a value of the registry. *)
Theorem loadFeaturesFromString_frame (text : string) (s : state) :
  let s' := snd (loadFeaturesFromString text s) in
  featureRegistry s' = featureRegistry s /\
  length (objects s') = length (objects s) /\
  (forall i, nameOf (objects s') i = nameOf (objects s) i /\
             leafNameOf (objects s') i = leafNameOf (objects s) i) /\
  (forall i, i ∉ reg_values (featureRegistry s) ->
             enabledOf (objects s') i = enabledOf (objects s) i).
Proof.
  rewrite loadFeaturesFromString_directives. simpl.
  rewrite fold_loadOne_writes. simpl.
  set (ws := omap (writeOf (featureRegistry s)) (directivesOf text s)).
  split_and!.
  - done.
  - pose proof (fold_loadOne_length (directivesOf text s) s) as Hlen.
    by rewrite fold_loadOne_writes in Hlen.
  - intros i. unfold nameOf, leafNameOf. rewrite lookup_applyWrites.
    destruct (lastWrite ws i), (objects s !! i); done.
  - intros i Hi. unfold enabledOf. rewrite lookup_applyWrites.
    destruct (lastWrite ws i) as [b|] eqn:Hw; [|done].
    exfalso. apply Hi. apply lastWrite_in in Hw.
    apply (omap_writeOf_registered _ (directivesOf text s)); [|done].
    apply directivesOf_registered.
Qed.

(** X6.  In a load that returns, the last token decides: a plain name last
    leaves the object registered under it explicitly enabled, and ["-" ++ n]
    last leaves the object registered under the current name of [n]'s
    object explicitly disabled, whatever the earlier tokens (the wildcard
    included) did to them. *)
Theorem loadFeaturesFromString_last_token (text : string) (s : state)
  (pre : list string) (t : string) :
  featureNamesOf text = pre ++ [ t ] ->
  t <> "*" -> t <> "-*" ->
  fst (loadFeaturesFromString text s) = Returned ->
  let s' := snd (loadFeaturesFromString text s) in
  (forall a, Js.startsWith "-" t = false ->
             reg_get (featureRegistry s) t = Some a ->
             a < length (objects s) ->
             enabledOf (objects s') a = Some true /\
             isFeatureEnabled s' a = true) /\
  (forall a b, Js.startsWith "-" t = true ->
               reg_get (featureRegistry s) (Js.slice1 t) = Some a ->
               reg_get (featureRegistry s) (nameOf (objects s) a) = Some b ->
               b < length (objects s) ->
               enabledOf (objects s') b = Some false /\
               isFeatureEnabled s' b = false).
Proof.
  intros Hnames Hstar Hwild. rewrite loadFeaturesFromString_directives. simpl.
  unfold outcomeOf, directivesOf. rewrite Hnames.
  destruct (resolveNames (pre ++ [ t ]) s) as [msg|l] eqn:Hres; [done|].
  intros _.
  destruct (resolveNames_last pre t s l Hstar Hwild Hres) as (l' & -> & _).
  rewrite app_assoc, fold_left_app. simpl.
  set (s0 := fold_left loadOne _ s).
  assert (Hr0 : featureRegistry s0 = featureRegistry s)
    by apply fold_loadOne_registry.
  assert (Hl0 : length (objects s0) = length (objects s))
    by apply fold_loadOne_length.
  split.
  - intros a Hdash Ha Hlt. unfold getFeature. rewrite Hdash, Ha. simpl.
    assert (He : enabledOf (setEnabled a (Some true) (objects s0)) a = Some true).
    { rewrite enabledOf_setEnabled, decide_True; [done|]. by rewrite Hl0. }
    split; [done|]. unfold isFeatureEnabled. simpl. by rewrite He.
  - intros a b Hdash Ha Hb Hlt. unfold getFeature, asDisabled.
    rewrite Hdash, Ha. simpl. rewrite Hr0, Hb. simpl.
    assert (He : enabledOf (setEnabled b (Some false) (objects s0)) b = Some false).
    { rewrite enabledOf_setEnabled, decide_True; [done|]. by rewrite Hl0. }
    split; [done|]. unfold isFeatureEnabled. simpl. by rewrite He.
Qed.

Lemma loadFeaturesFromString_last_token_witness :
  enabledOf (objects (snd (loadFeaturesFromString "-*, -a.b, a" declared))) 1
  = Some true.
Proof.
  apply (loadFeaturesFromString_last_token "-*, -a.b, a" declared
           [ "-*"; "-a.b" ] "a"); try done.
  simpl. lia.
Defined.

(** ** [loadFeatures] as a sequence of assignments *)

Section Assignments.

Lemma lookup_loadFeatures ds ov s i :
  objects (loadFeatures ds ov s) !! i =
    match lastWrite (omap (writeOf (featureRegistry s)) ds) i with
    | Some b =>
        (fun c => Cell (symFeatureName c) (symFeatureLeafName c) (Some b))
          <$> objects s !! i
    | None =>
        if ov && bool_decide (i ∈ reg_values (featureRegistry s))
        then (fun c => Cell (symFeatureName c) (symFeatureLeafName c) None)
               <$> objects s !! i
        else objects s !! i
    end.
Proof.
  unfold loadFeatures. rewrite fold_loadOne_writes. simpl.
  rewrite lookup_applyWrites.
  destruct ov; simpl.
  - rewrite lookup_fold_setEnabled.
    destruct (lastWrite _ i); case_decide;
      rewrite ?bool_decide_eq_true_2, ?bool_decide_eq_false_2 by done;
      by destruct (objects s !! i).
  - done.
Qed.

Lemma enabledOf_clearEnabled s i :
  enabledOf (objects (clearEnabled s)) i =
    if bool_decide (i ∈ reg_values (featureRegistry s)) then None
    else enabledOf (objects s) i.
Proof.
  unfold clearEnabled, enabledOf. simpl. rewrite lookup_fold_setEnabled.
  case_decide; rewrite ?bool_decide_eq_true_2, ?bool_decide_eq_false_2 by done;
    by destruct (objects s !! i).
Qed.

Lemma state_eq (s1 s2 : state) :
  objects s1 = objects s2 -> featureRegistry s1 = featureRegistry s2 -> s1 = s2.
Proof. destruct s1, s2. simpl. by intros -> ->. Qed.

Lemma walkParents_all_none s stack :
  (forall p, explicitAt s p = None) -> walkParents s stack = None.
Proof.
  intros H. induction stack as [|p stack IH]; [done|].
  simpl. rewrite IH. destruct (Js.truthy p); [|done]. simpl.
  specialize (H p). unfold explicitAt in H.
  destruct (reg_get (featureRegistry s) p); by rewrite ?H.
Qed.

End Assignments.

(** X7.  [loadFeatures([], true)] is a full reset of the registry: every
    registered object loses its explicit state and reads enabled, so that
    [printFeatureRegistry] lists every entry as enabled; objects outside the
    registry keep their explicit state. *)
Theorem loadFeatures_reset (s : state) :
  let s' := loadFeatures [] true s in
  (forall a, a ∈ reg_values (featureRegistry s) ->
     enabledOf (objects s') a = None /\ isFeatureEnabled s' a = true) /\
  registryEntries s' = map (fun kv => (fst kv, true)) (featureRegistry s) /\
  (forall i, i ∉ reg_values (featureRegistry s) ->
     enabledOf (objects s') i = enabledOf (objects s) i).
Proof.
  cbv zeta. change (loadFeatures [] true s) with (clearEnabled s).
  assert (Hreg : forall a, a ∈ reg_values (featureRegistry s) ->
            enabledOf (objects (clearEnabled s)) a = None).
  { intros a Ha. by rewrite enabledOf_clearEnabled, bool_decide_eq_true_2. }
  assert (Hall : forall p, explicitAt (clearEnabled s) p = None).
  { intros p. unfold explicitAt. simpl.
    destruct (reg_get (featureRegistry s) p) as [x|] eqn:Hp; [|done].
    apply Hreg. by eapply reg_get_in. }
  assert (Henabled : forall a, a ∈ reg_values (featureRegistry s) ->
            isFeatureEnabled (clearEnabled s) a = true).
  { intros a Ha. unfold isFeatureEnabled.
    by rewrite (Hreg a Ha), walkParents_all_none. }
  split_and!.
  - intros a Ha. by split; [apply Hreg|apply Henabled].
  - unfold registryEntries. simpl. apply map_ext_in. intros [k a] Hin.
    simpl. f_equal. apply Henabled.
    apply elem_of_reg_values. exists k. by apply list_elem_of_In.
  - intros i Hi. by rewrite enabledOf_clearEnabled, bool_decide_eq_false_2.
Qed.

Lemma loadFeatures_reset_witness :
  enabledOf (objects (loadFeatures [] true redeclared)) 3 = None /\
  isFeatureEnabled (loadFeatures [] true redeclared) 3 = true.
Proof.
  apply (proj1 (loadFeatures_reset redeclared) 3).
  apply (bool_decide_unpack _). by vm_compute.
Defined.

(** X8.  Applying the same directives twice in a row, with or without the
    reset, gives the state of applying them once. *)
Theorem loadFeatures_idempotent (ds : list value) (ov : bool) (s : state) :
  loadFeatures ds ov (loadFeatures ds ov s) = loadFeatures ds ov s.
Proof.
  assert (Hr : forall s0, featureRegistry (loadFeatures ds ov s0) = featureRegistry s0)
    by (intros; apply loadFeatures_registry).
  apply state_eq; [|by rewrite !Hr].
  apply list_eq. intros i. rewrite (lookup_loadFeatures ds ov (loadFeatures _ _ _)).
  rewrite Hr, lookup_loadFeatures.
  destruct (lastWrite _ i); [by destruct (objects s !! i)|].
  destruct (ov && bool_decide _); by destruct (objects s !! i).
Qed.

(** X9.  Loading the same configuration string twice in a row ends as
    loading it once does, in outcome and in state. *)
Theorem loadFeaturesFromString_twice (text : string) (s : state) :
  loadFeaturesFromString text (snd (loadFeaturesFromString text s))
  = loadFeaturesFromString text s.
Proof. apply loadFeaturesFromString_idempotent. Qed.

(** ** Inheritance *)

Section Inheritance.

Lemma dotPrefix_length q n : dotPrefix q n -> String.length q <= String.length n.
Proof.
  intros [->|[rest ->]]; [done|]. rewrite !length_append. lia.
Qed.

Lemma dotPrefix_nodot q leaf :
  Js.includes "." leaf = false -> dotPrefix q leaf -> q = leaf.
Proof.
  revert q. induction leaf as [|c leaf IH]; intros q Hleaf Hq.
  - by apply dotPrefix_empty in Hq.
  - simpl in Hleaf. apply orb_false_iff in Hleaf as [Hc Hleaf].
    apply dotPrefix_String in Hq as [[_ ->]|(q' & -> & Hq')]; [done|].
    f_equal. by apply IH.
Qed.

(** The dot-boundary prefixes of [p.leaf], for a dot-free leaf, are the
    whole name and the prefixes of [p]. *)
Lemma dotPrefix_child p leaf q :
  Js.includes "." leaf = false ->
  dotPrefix q (p +:+ "." +:+ leaf) ->
  q = p +:+ "." +:+ leaf \/ dotPrefix q p.
Proof.
  intros Hleaf. revert q. induction p as [|c p IH]; intros q Hq.
  - change ("" +:+ "." +:+ leaf) with (String "." leaf) in *.
    apply dotPrefix_String in Hq as [[-> _]|(q' & -> & Hq')].
    + right. by left.
    + left. f_equal. by apply dotPrefix_nodot.
  - change (String c p +:+ "." +:+ leaf)
      with (String c (p +:+ "." +:+ leaf)) in *.
    apply dotPrefix_String in Hq as [[-> ->]|(q' & -> & Hq')].
    + right. apply dotPrefix_String. by left.
    + destruct (IH q' Hq') as [->|Hp]; [by left|].
      right. apply dotPrefix_String. right. by exists q'.
Qed.

End Inheritance.

(** X10.  A flag without explicit state that is registered under its own
    name [parent.leaf], with a dot-free leaf, reads the explicit state the
    registry holds at [parent]. *)
Theorem isFeatureEnabled_inherits_parent (s : state) (child : addr)
  (parent leaf : string) (b : bool) :
  enabledOf (objects s) child = None ->
  nameOf (objects s) child = parent +:+ "." +:+ leaf ->
  Js.includes "." leaf = false ->
  parent <> "" ->
  reg_get (featureRegistry s) (nameOf (objects s) child) = Some child ->
  explicitAt s parent = Some b ->
  isFeatureEnabled s child = b.
Proof.
  intros Hnone Hname Hleaf Hparent Hself Hb.
  unfold isFeatureEnabled. rewrite Hnone.
  rewrite (walkParents_nearest s _ parent b); try done.
  - rewrite Hname. right. by exists leaf.
  - intros q Hq Hlen. rewrite Hname in Hq.
    destruct (dotPrefix_child parent leaf q Hleaf Hq) as [->|Hp].
    + unfold explicitAt. rewrite <- Hname. by rewrite Hself.
    + apply dotPrefix_length in Hp. lia.
Qed.

Lemma isFeatureEnabled_inherits_parent_witness :
  isFeatureEnabled (disable 1 declared) 0 = false.
Proof.
  by apply (isFeatureEnabled_inherits_parent (disable 1 declared) 0 "a" "b" false).
Defined.

(** X11.  The most specific rule wins: after [$enable] an existing object
    reads enabled and after [$disable] disabled, whatever its ancestors say;
    and the reading of another object that has an explicit state of its own
    is not affected. *)
Theorem explicit_state_wins (s : state) (a : addr) :
  a < length (objects s) ->
  isFeatureEnabled (enable a s) a = true /\
  isFeatureEnabled (disable a s) a = false /\
  (forall c v, c <> a -> enabledOf (objects s) c = Some v ->
     isFeatureEnabled (enable a s) c = v /\
     isFeatureEnabled (disable a s) c = v).
Proof.
  intros Hlt. unfold isFeatureEnabled, enable, disable. simpl.
  rewrite !enabledOf_setEnabled, !decide_True by done.
  split_and!; try done.
  intros c v Hc Hv.
  rewrite !enabledOf_setEnabled, !decide_False by (by intros [? _]).
  by rewrite Hv.
Qed.

Lemma explicit_state_wins_witness :
  isFeatureEnabled (enable 0 (disable 1 declared)) 0 = true.
Proof.
  assert (Hlt : 0 < length (objects (disable 1 declared))) by (simpl; lia).
  exact (proj1 (explicit_state_wins (disable 1 declared) 0 Hlt)).
Defined.

(** X12.  After the wildcard pass a flag without explicit state reads
    disabled when the first segment of its name is registered as a root
    flag and no longer prefix of its name carried an explicit state. *)
Theorem disableAll_descendants (s : state) (a root : addr) (first : string) :
  registry_ok s ->
  enabledOf (objects s) a = None ->
  first <> "" ->
  dotPrefix first (nameOf (objects s) a) ->
  Js.includes "." first = false ->
  reg_get (featureRegistry s) first = Some root ->
  nameOf (objects s) root = first ->
  (forall q, dotPrefix q (nameOf (objects s) a) ->
             String.length first < String.length q -> explicitAt s q = None) ->
  isFeatureEnabled (disableAll s) a = false.
Proof.
  intros Hok Hnone Hfirst Hpre Hdot Hreg Hname Hnear.
  rewrite (disableAll_objects s Hok).
  set (h' := fold_left _ (rootRefs s) (objects s)).
  assert (Hcases : forall i, enabledOf h' i = Some false \/
                             enabledOf h' i = enabledOf (objects s) i).
  { intros i. unfold h', enabledOf. rewrite lookup_fold_setEnabled.
    case_decide; [|by right]. destruct (objects s !! i); [by left|by right]. }
  assert (Hroot : enabledOf h' root = Some false).
  { apply enabledOf_fold_setEnabled_in.
    - apply elem_of_rootRefs. split; [by eapply reg_get_in|].
      unfold rootLevel. by rewrite Hname.
    - apply reg_get_in, elem_of_reg_values in Hreg as [k Hk].
      by destruct (proj2 Hok k root Hk). }
  unfold isFeatureEnabled. simpl.
  destruct (Hcases a) as [-> | ->]; [done|]. rewrite Hnone.
  unfold h'. rewrite nameOf_fold_setEnabled. fold h'.
  rewrite (walkParents_agree _ _ first false); try done.
  - unfold explicitAt. simpl. by rewrite Hreg.
  - intros q Hq Hlen. specialize (Hnear q Hq Hlen).
    unfold explicitAt in *. simpl.
    destruct (reg_get (featureRegistry s) q) as [x|]; [|by left].
    destruct (Hcases x) as [-> | ->]; [by right|by left].
Qed.

Lemma disableAll_descendants_witness :
  isFeatureEnabled (disableAll declared) 0 = false.
Proof.
  apply (disableAll_descendants declared 0 1 "a"); try done.
  - exact declared_registry_ok.
  - right. by exists "b"%string.
  - intros q Hq Hlen. apply elem_of_parentsOf in Hq.
    change (q ∈ [ "a"; "a.b" ]) in Hq.
    apply elem_of_cons in Hq as [->|Hq]; [simpl in Hlen; lia|].
    apply list_elem_of_singleton in Hq as ->. reflexivity.
Defined.

(** ** What registration puts in the registry *)

Section Registration.

Variable h : heap.

(** A property of the registry that every single [featureRegistry.set] of
    an object of [S] under its name keeps is kept by [register]. *)
Lemma registerOne_invariant (Q : registry -> Prop) (S : addr -> Prop) :
  (forall a r, S a -> Q r -> Q (reg_set (nameOf h a) a r)) ->
  forall o, (forall a, a ∈ refsOf o -> S a) ->
  forall r, Q r -> Q (registerOne h o r).
Proof.
  intros Hstep. induction o as [a props IH] using FeatureObject_ind.
  intros HS r Hr. rewrite registerOne_unfold. rewrite refsOf_unfold in HS.
  assert (Hset : Q (reg_set (nameOf h a) a r)) by (apply Hstep; [apply HS; by left|done]).
  assert (Hprops : forall i, i ∈ refsOfProps props -> S i)
    by (intros i Hi; apply HS; by right).
  revert Hset Hprops. generalize (reg_set (nameOf h a) a r). clear r Hr HS.
  induction props as [|[k [c|]] props IHprops]; intros r Hr HS; simpl; [done| |].
  - apply IHprops.
    + intros k' sub Hin. apply (IH k' sub). by right.
    + apply (IH k c); [by left| |done].
      intros i Hi. apply HS, elem_of_refsOfProps. exists k, c. split; [by left|done].
    + intros i Hi. apply HS.
      apply elem_of_refsOfProps in Hi as (k' & sub & Hin & Hi).
      apply elem_of_refsOfProps. exists k', sub. split; [by right|done].
  - apply IHprops; [|done|].
    + intros k' sub Hin. apply (IH k' sub). by right.
    + intros i Hi. apply HS.
      apply elem_of_refsOfProps in Hi as (k' & sub & Hin & Hi).
      apply elem_of_refsOfProps. exists k', sub. split; [by right|done].
Qed.

Lemma register_invariant (Q : registry -> Prop) (S : addr -> Prop) props :
  (forall a r, S a -> Q r -> Q (reg_set (nameOf h a) a r)) ->
  (forall a, a ∈ refsOfProps props -> S a) ->
  forall r, Q r -> Q (register h props r).
Proof.
  intros Hstep. induction props as [|[k [c|]] props IH]; intros HS r Hr; simpl.
  - done.
  - apply IH.
    + intros i Hi. apply HS.
      apply elem_of_refsOfProps in Hi as (k' & sub & Hin & Hi).
      apply elem_of_refsOfProps. exists k', sub. split; [by right|done].
    + apply (registerOne_invariant Q S); [done| |done].
      intros i Hi. apply HS, elem_of_refsOfProps. exists k, c. split; [by left|done].
  - apply IH; [|done].
    intros i Hi. apply HS.
    apply elem_of_refsOfProps in Hi as (k' & sub & Hin & Hi).
    apply elem_of_refsOfProps. exists k', sub. split; [by right|done].
Qed.

Lemma reg_get_reg_set k v r k' :
  reg_get (reg_set k v r) k' = if String.eqb k k' then Some v else reg_get r k'.
Proof.
  induction r as [|[k0 v0] r IH]; simpl.
  - done.
  - destruct (String.eqb_spec k0 k) as [->|Hne]; simpl.
    + by destruct (String.eqb k k').
    + rewrite IH. destruct (String.eqb_spec k0 k') as [->|Hne'].
      * apply String.eqb_neq in Hne. rewrite String.eqb_sym in Hne. by rewrite Hne.
      * done.
Qed.

Lemma filed_step S target a r :
  S a -> filed h S target r -> filed h S target (reg_set (nameOf h a) a r).
Proof.
  intros Ha (b & Hb & Hget & Hname). unfold filed. rewrite reg_get_reg_set.
  destruct (String.eqb_spec (nameOf h a) (nameOf h target)) as [Heq|Hne].
  - by exists a.
  - by exists b.
Qed.

Lemma registerOne_files S target o :
  target ∈ refsOf o -> (forall a, a ∈ refsOf o -> S a) ->
  forall r, filed h S target (registerOne h o r).
Proof.
  induction o as [a props IH] using FeatureObject_ind.
  intros Hin HS r. rewrite registerOne_unfold. rewrite refsOf_unfold in Hin, HS.
  assert (Hprops : forall i, i ∈ refsOfProps props -> S i)
    by (intros i Hi; apply HS; by right).
  apply elem_of_cons in Hin as [->|Hin].
  - apply (register_invariant (filed h S a) S); [intros; by apply filed_step|done|].
    unfold filed. rewrite reg_get_reg_set, String.eqb_refl.
    exists a. split; [apply HS; by left|done].
  - generalize (reg_set (nameOf h a) a r). clear r HS.
    induction props as [|[k [c|]] props IHprops]; intros r; simpl.
    + by apply elem_of_nil in Hin.
    + change (refsOfProps ((k, Some c) :: props))
        with (refsOf c ++ refsOfProps props) in Hin.
      assert (Hc : forall i, i ∈ refsOf c -> S i).
      { intros i Hi. apply Hprops, elem_of_refsOfProps. exists k, c.
        split; [by left|done]. }
      assert (Hrest : forall i, i ∈ refsOfProps props -> S i).
      { intros i Hi. apply Hprops.
        apply elem_of_refsOfProps in Hi as (k' & sub & Hin' & Hi).
        apply elem_of_refsOfProps. exists k', sub. split; [by right|done]. }
      destruct (decide (target ∈ refsOf c)) as [Htc|Htc].
      * apply (register_invariant (filed h S target) S);
          [intros; by apply filed_step|done|].
        apply (IH k c); [by left|done|done].
      * apply elem_of_app in Hin as [?|Hin]; [done|].
        apply IHprops; try done.
        intros k' sub Hin'. apply (IH k' sub). by right.
    + apply IHprops; try done.
      intros k' sub Hin'. apply (IH k' sub). by right.
Qed.

Lemma register_files S target props :
  target ∈ refsOfProps props -> (forall a, a ∈ refsOfProps props -> S a) ->
  forall r, filed h S target (register h props r).
Proof.
  induction props as [|[k [c|]] props IH]; intros Hin HS r; simpl.
  - by apply elem_of_nil in Hin.
  - change (refsOfProps ((k, Some c) :: props))
      with (refsOf c ++ refsOfProps props) in Hin, HS.
    destruct (decide (target ∈ refsOf c)) as [Htc|Htc].
    + apply (register_invariant (filed h S target) S); [intros; by apply filed_step| |].
      * intros i Hi. apply HS, elem_of_app. by right.
      * apply registerOne_files; [done|].
        intros i Hi. apply HS, elem_of_app. by left.
    + apply elem_of_app in Hin as [?|Hin]; [done|].
      apply IH; [done|]. intros i Hi. apply HS, elem_of_app. by right.
  - by apply IH.
Qed.

Lemma reg_keys_reg_set_cases k v r :
  reg_keys (reg_set k v r) = reg_keys r \/
  reg_keys (reg_set k v r) = reg_keys r ++ [ k ].
Proof.
  unfold reg_keys. induction r as [|[k0 v0] r IH]; simpl; [by right|].
  destruct (String.eqb_spec k0 k) as [->|Hne]; simpl; [by left|].
  destruct IH as [-> | ->]; [by left|by right].
Qed.

End Registration.

(** X13.  After [registerFeatures], whatever its options and outcome, the
    qualified name of every object of the forest is a registry key, and the
    object filed under it belongs to the forest and has that name; when the
    name does not begin with ["-"], [getFeature] returns that object. *)
Theorem registerFeatures_files_forest (forest : Props) (options : Options)
  (env : Env) (s : state) (a : addr) :
  a ∈ refsOfProps forest ->
  let s' := snd (registerFeatures forest options env s) in
  exists b,
    b ∈ refsOfProps forest /\
    reg_get (featureRegistry s') (nameOf (objects s') a) = Some b /\
    nameOf (objects s') b = nameOf (objects s') a /\
    (Js.startsWith "-" (nameOf (objects s') a) = false ->
     getFeature (nameOf (objects s') a) s' = VFeature b).
Proof.
  intros Ha. cbv zeta.
  destruct (registerFeatures_registry forest options env s) as [Hr Hn].
  destruct (register_files (objects s) (fun x => x ∈ refsOfProps forest) a forest Ha)
    with (r := if override options then [] else featureRegistry s)
    as (b & Hb & Hget & Hname); [done|].
  exists b. rewrite Hr, !Hn. split_and!; try done.
  intros Hdash. unfold getFeature. by rewrite Hdash, Hr, Hget.
Qed.

Lemma registerFeatures_files_forest_witness :
  exists b,
    b ∈ [ 1; 0 ] /\
    reg_get (featureRegistry declared) (nameOf (objects declared) 0) = Some b /\
    nameOf (objects declared) b = nameOf (objects declared) 0 /\
    (Js.startsWith "-" (nameOf (objects declared) 0) = false ->
     getFeature (nameOf (objects declared) 0) declared = VFeature b).
Proof.
  apply (registerFeatures_files_forest [ ("A", Some (Feature 1 [ ("B", Some (Feature 0 [])) ])) ]
           manual noEnv
           (snd (defineFeature "a" [ ("B", Some (Feature 0 [])) ]
                   (snd (defineFeature "b" [] emptyState)))) 0).
  apply (bool_decide_unpack _). by vm_compute.
Defined.

(** X14.  Without [override], registration removes and reorders nothing:
    the former keys, in their order, begin the new key list, and a key that
    is not the name of an object of the forest keeps its entry. *)
Theorem registerFeatures_keeps_keys (forest : Props) (options : Options)
  (env : Env) (s : state) :
  override options = false ->
  let s' := snd (registerFeatures forest options env s) in
  reg_keys (featureRegistry s) `prefix_of` reg_keys (featureRegistry s') /\
  (forall k,
     (forall a, a ∈ refsOfProps forest -> nameOf (objects s) a <> k) ->
     reg_get (featureRegistry s') k = reg_get (featureRegistry s) k).
Proof.
  intros Hov. cbv zeta.
  destruct (registerFeatures_registry forest options env s) as [Hr _].
  rewrite Hr, Hov. split.
  - apply (register_invariant (objects s)
             (fun r => reg_keys (featureRegistry s) `prefix_of` reg_keys r)
             (fun _ => True)); [|done|done].
    intros a r _ Hp.
    destruct (reg_keys_reg_set_cases (nameOf (objects s) a) a r) as [-> | ->];
      [done|by apply prefix_app_r].
  - intros k Hk.
    apply (register_invariant (objects s)
             (fun r => reg_get r k = reg_get (featureRegistry s) k)
             (fun a => nameOf (objects s) a <> k)); [|done|done].
    intros a r Ha Hget. rewrite reg_get_reg_set.
    apply String.eqb_neq in Ha. by rewrite Ha.
Qed.

Lemma registerFeatures_keeps_keys_witness :
  reg_keys (featureRegistry declared) `prefix_of`
    reg_keys (featureRegistry
                (snd (registerFeatures [ ("One", Some oneFlag.1) ] manual noEnv
                        declared))).
Proof.
  apply (registerFeatures_keeps_keys [ ("One", Some oneFlag.1) ] manual noEnv declared).
  reflexivity.
Defined.

(** X15.  With [override], the registry after [registerFeatures] holds
    objects of the forest only, each filed under its current qualified
    name, and no key twice. *)
Theorem registerFeatures_override_keyed (forest : Props) (options : Options)
  (env : Env) (s : state) :
  override options = true ->
  let s' := snd (registerFeatures forest options env s) in
  NoDup (reg_keys (featureRegistry s')) /\
  keyed s' /\
  (forall b, b ∈ reg_values (featureRegistry s') -> b ∈ refsOfProps forest).
Proof.
  intros Hov. cbv zeta. unfold keyed.
  destruct (registerFeatures_registry forest options env s) as [Hr Hn].
  rewrite Hr, Hov.
  pose proof (register_invariant (objects s)
    (fun r => NoDup (reg_keys r) /\
              forall k b, (k, b) ∈ r ->
                k = nameOf (objects s) b /\ b ∈ refsOfProps forest)
    (fun a => a ∈ refsOfProps forest) forest) as Hinv.
  destruct (Hinv) with (r := @nil (string * nat)) as [Hnd Hent].
  - intros a r Ha [Hnd Hent]. split; [by apply reg_keys_reg_set|].
    intros k b [Heq|Hin]%elem_of_reg_set; [|by apply Hent].
    by simplify_eq.
  - done.
  - split; [apply NoDup_nil_2|]. intros k b Hin. by apply elem_of_nil in Hin.
  - split_and!; [done| |].
    + intros k b Hin. rewrite Hn. by apply Hent.
    + intros b [k Hin]%elem_of_reg_values. by apply (Hent k b).
Qed.

Lemma registerFeatures_override_keyed_witness :
  keyed (snd (registerFeatures [ ("One", Some oneFlag.1) ]
                (overriding PEUndefined) envDisablesOne redeclared)).
Proof.
  apply (registerFeatures_override_keyed [ ("One", Some oneFlag.1) ]
           (overriding PEUndefined) envDisablesOne redeclared).
  reflexivity.
Defined.

(** X16.  [defineFeature] takes the next free reference for an object
    without explicit state, and touches neither the registry, nor the leaf
    name or the explicit state of any existing object, nor the name of an
    existing object outside the subfeatures given. *)
Theorem defineFeature_frame (s : state) (feature : string) (subfeatures : Props) :
  let o := fst (defineFeature feature subfeatures s) in
  let s' := snd (defineFeature feature subfeatures s) in
  ref_of o = length (objects s) /\
  length (objects s') = S (length (objects s)) /\
  featureRegistry s' = featureRegistry s /\
  enabledOf (objects s') (ref_of o) = None /\
  (forall i, i < length (objects s) ->
     leafNameOf (objects s') i = leafNameOf (objects s) i /\
     enabledOf (objects s') i = enabledOf (objects s) i) /\
  (forall i, i < length (objects s) -> i ∉ refsOfProps subfeatures ->
     nameOf (objects s') i = nameOf (objects s) i).
Proof.
  simpl. set (h0 := objects s ++ [ Cell feature feature None ]).
  destruct (prefixFeatureName_sameButNames feature subfeatures h0) as [Hlen Hsame].
  assert (Hold : forall i, i < length (objects s) -> h0 !! i = objects s !! i).
  { intros i Hi. unfold h0. by apply lookup_app_l. }
  split_and!.
  - done.
  - rewrite Hlen. unfold h0. rewrite length_app. simpl. lia.
  - done.
  - destruct (Hsame (length (objects s))) as [_ ->].
    unfold enabledOf, h0. by rewrite lookup_app_r, Nat.sub_diag.
  - intros i Hi. destruct (Hsame i) as [-> ->].
    unfold leafNameOf, enabledOf. by rewrite (Hold i Hi).
  - intros i Hi Hni. rewrite prefixFeatureName_frame by done.
    unfold nameOf. by rewrite (Hold i Hi).
Qed.

Lemma defineFeature_frame_witness :
  nameOf (objects (snd (defineFeature "p2" [ ("S", Some (sharedLeaf.1.1)) ]
                          sharedLeaf.2))) 1 = "p1".
Proof.
  destruct (defineFeature_frame sharedLeaf.2 "p2" [ ("S", Some (sharedLeaf.1.1)) ])
    as (_ & _ & _ & _ & _ & Hnames).
  rewrite (Hnames 1); [reflexivity|simpl; lia|].
  apply (bool_decide_unpack _). by vm_compute.
Defined.

(** Witness of X17 ([reachable_registry_ok]): the state [declared], reached
    by two [defineFeature] calls and one registration, satisfies the
    registry invariant. *)
Lemma reachable_registry_ok_witness : registry_ok declared.
Proof.
  apply (reachable_registry_ok declared).
  change declared with
    (snd (registerFeatures [ ("A", Some (Feature 1 [ ("B", Some (Feature 0 [])) ])) ]
            manual noEnv
            (snd (defineFeature "a" [ ("B", Some (Feature 0 [])) ]
                    (snd (defineFeature "b" [] emptyState)))))).
  apply reach_register; [apply reach_define; [apply reach_define|]|].
  - apply reach_empty.
  - intros a Ha. by apply elem_of_nil in Ha.
  - intros a Ha. change (a ∈ [ 0 ]) in Ha.
    apply list_elem_of_singleton in Ha as ->. simpl. lia.
  - intros a Ha. change (a ∈ [ 1; 0 ]) in Ha.
    apply elem_of_cons in Ha as [->|Ha]; [simpl; lia|].
    apply list_elem_of_singleton in Ha as ->. simpl. lia.
Defined.

(** ** The older copy *)

(** X18.  On an existing object the older [isFeatureEnabled] returns what
    the newer one computes on the same state; it changes nothing but the
    explicit state of the object read, and reading again returns the same
    value and changes nothing more. *)
Theorem legacy_isFeatureEnabled_agrees (s : state) (a : addr) :
  a < length (objects s) ->
  let s' := snd (Legacy.isFeatureEnabled a s) in
  fst (Legacy.isFeatureEnabled a s) = isFeatureEnabled s a /\
  featureRegistry s' = featureRegistry s /\
  (forall i, nameOf (objects s') i = nameOf (objects s) i) /\
  (forall i, i <> a -> enabledOf (objects s') i = enabledOf (objects s) i) /\
  Legacy.isFeatureEnabled a s' = (isFeatureEnabled s a, s').
Proof.
  intros Hlt. cbv zeta. unfold Legacy.isFeatureEnabled, isFeatureEnabled.
  destruct (enabledOf (objects s) a) as [b|] eqn:Hown.
  - simpl. rewrite Hown. by split_and!.
  - destruct (walkParents s (rev (parentsOf (nameOf (objects s) a)))) as [b|].
    + assert (He : enabledOf (setEnabled a (Some b) (objects s)) a = Some b)
        by (by rewrite enabledOf_setEnabled, decide_True).
      rewrite He. simpl. rewrite He. split_and!; try done.
      * intros i. apply nameOf_setEnabled.
      * intros i Hi. rewrite enabledOf_setEnabled, decide_False; [done|].
        by intros [? _].
    + rewrite Hown.
      assert (He : enabledOf (setEnabled a (Some true) (objects s)) a = Some true)
        by (by rewrite enabledOf_setEnabled, decide_True).
      simpl. rewrite He. simpl. split_and!; try done.
      * intros i. apply nameOf_setEnabled.
      * intros i Hi. rewrite enabledOf_setEnabled, decide_False; [done|].
        by intros [? _].
Qed.

Lemma legacy_isFeatureEnabled_agrees_witness :
  fst (Legacy.isFeatureEnabled 0 (disable 1 declared))
  = isFeatureEnabled (disable 1 declared) 0.
Proof.
  assert (Hlt : 0 < length (objects (disable 1 declared))) by (simpl; lia).
  exact (proj1 (legacy_isFeatureEnabled_agrees (disable 1 declared) 0 Hlt)).
Defined.

Section LegacyLoader.

Lemma legacy_resolvePieces pieces s :
  "*" ∉ namesAmong pieces -> "-*" ∉ namesAmong pieces ->
  Legacy.resolvePieces pieces s = resolveNames (namesAmong pieces) s.
Proof.
  unfold namesAmong.
  induction pieces as [|p pieces IH]; intros Hstar Hwild; [done|].
  change (map Js.trim (p :: pieces)) with (Js.trim p :: map Js.trim pieces) in *.
  rewrite filter_cons in Hstar, Hwild |- *.
  change (Legacy.resolvePieces (p :: pieces) s) with
    (if negb (Js.truthy (Js.trim p)) then Legacy.resolvePieces pieces s
     else match getFeature (Js.trim p) s with
          | VNull => inl (notFoundMessage (Js.trim p) s)
          | featureObject =>
              match Legacy.resolvePieces pieces s with
              | inl msg => inl msg
              | inr l => inr (featureObject :: l)
              end
          end).
  case_decide as Htr.
  - apply Is_true_true in Htr. rewrite Htr.
    apply not_elem_of_cons in Hstar as [Hs1 Hs2].
    apply not_elem_of_cons in Hwild as [Hw1 Hw2].
    simpl. rewrite IH by done.
    assert (H1 : String.eqb (Js.trim p) "*" = false)
      by (apply String.eqb_neq; congruence).
    assert (H2 : String.eqb (Js.trim p) "-*" = false)
      by (apply String.eqb_neq; congruence).
    by rewrite H1, H2.
  - apply Is_true_false in Htr. rewrite Htr. simpl. by apply IH.
Qed.

Lemma isSeparator_comma c :
  noSpaceOrLineFeed c = true -> Js.isSeparator c = Ascii.eqb c ",".
Proof.
  destruct c as [[] [] [] [] [] [] [] []]; vm_compute; congruence.
Qed.

Lemma namesAmong_blank_head pieces : namesAmong ("" :: pieces) = namesAmong pieces.
Proof. reflexivity. Qed.

Lemma namesAmong_same_head x xs ys :
  namesAmong xs = namesAmong ys -> namesAmong (x :: xs) = namesAmong (x :: ys).
Proof.
  unfold namesAmong. simpl. rewrite !filter_cons. by intros ->.
Qed.

(** Cutting at commas and cutting at runs of commas give the same names. *)
Lemma split_splitRuns text :
  everyChar noSpaceOrLineFeed text = true ->
  (exists x xs ys,
     Js.splitRuns false text = x :: xs /\ Js.split "," text = x :: ys /\
     namesAmong xs = namesAmong ys) /\
  namesAmong (Js.splitRuns true text) = namesAmong (Js.split "," text).
Proof.
  induction text as [|c text IH]; intros Hall.
  - split; [by exists "", [], []|done].
  - simpl in Hall. apply andb_prop in Hall as [Hc Hall].
    destruct (IH Hall) as [(x & xs & ys & Hruns & Hsplit & Hnames) Htrue].
    simpl. rewrite (isSeparator_comma c Hc).
    destruct (Ascii.eqb c ","); simpl.
    + split.
      * exists "", (Js.splitRuns true text), (Js.split "," text). by split_and!.
      * by rewrite namesAmong_blank_head.
    + rewrite Hruns, Hsplit. split.
      * by exists (String c x), xs, ys.
      * by apply namesAmong_same_head.
Qed.

End LegacyLoader.

(** X19.  On a configuration string that the two copies cut into the same
    names, none of them ["*"] or ["-*"], the older loader ends as the newer
    one does, in outcome and in state. *)
Theorem legacy_loadFeaturesFromString_agrees (text : string) (s : state) :
  legacyNamesOf text = featureNamesOf text ->
  "*" ∉ featureNamesOf text ->
  "-*" ∉ featureNamesOf text ->
  Legacy.loadFeaturesFromString text s = loadFeaturesFromString text s.
Proof.
  intros Hsame Hstar Hwild.
  unfold Legacy.loadFeaturesFromString, loadFeaturesFromString.
  assert (Hn : namesAmong (Js.split "," text) = featureNamesOf text) by exact Hsame.
  rewrite legacy_resolvePieces by (by rewrite Hn). rewrite Hn.
  destruct (existsb (String.eqb "-*") (featureNamesOf text)) eqn:He; [|done].
  by apply existsb_wildcard in He.
Qed.

Lemma legacy_loadFeaturesFromString_agrees_witness :
  Legacy.loadFeaturesFromString " -a, a.b ,nope" declared
  = loadFeaturesFromString " -a, a.b ,nope" declared.
Proof.
  apply (legacy_loadFeaturesFromString_agrees " -a, a.b ,nope" declared).
  - reflexivity.
  - apply (bool_decide_unpack _). by vm_compute.
  - apply (bool_decide_unpack _). by vm_compute.
Defined.

(** X20.  On a configuration string without spaces and line feeds the two
    copies cut the same names: splitting at every comma and splitting at
    runs of separators differ in empty pieces only. *)
Theorem names_agree_without_spaces (text : string) :
  everyChar noSpaceOrLineFeed text = true ->
  legacyNamesOf text = featureNamesOf text.
Proof.
  intros Hall.
  destruct (split_splitRuns text Hall) as [(x & xs & ys & Hruns & Hsplit & Hnames) _].
  unfold legacyNamesOf, featureNamesOf. fold (namesAmong (Js.split "," text)).
  fold (namesAmong (Js.splitRuns false text)).
  rewrite Hruns, Hsplit. symmetry. by apply namesAmong_same_head.
Qed.

Lemma names_agree_without_spaces_witness :
  legacyNamesOf ",,a,-a.b,," = featureNamesOf ",,a,-a.b,,".
Proof.
  apply (names_agree_without_spaces ",,a,-a.b,,"). reflexivity.
Defined.

(** ** What a configuration string can enable *)

Section Enabling.

Lemma lastWrite_elem ws i b : lastWrite ws i = Some b -> (i, b) ∈ ws.
Proof.
  induction ws as [|[a v] ws IH]; simpl; [done|].
  destruct (lastWrite ws i) eqn:Hl.
  - intros H. right. by apply IH.
  - case_decide; [|done]. intros Hv. simplify_eq. by left.
Qed.

Lemma elem_of_omap_writeOf r (ds : list value) w :
  w ∈ omap (writeOf r) ds -> exists d, d ∈ ds /\ writeOf r d = Some w.
Proof.
  induction ds as [|d ds IH]; simpl.
  - intros H. by apply elem_of_nil in H.
  - destruct (writeOf r d) as [w'|] eqn:Hw.
    + intros [->|Hin]%elem_of_cons; [exists d; split; [by left|done]|].
      destruct (IH Hin) as (d' & Hd' & Hw'). exists d'. split; [by right|done].
    + intros Hin. destruct (IH Hin) as (d' & Hd' & Hw'). exists d'.
      split; [by right|done].
Qed.

Lemma resolveNames_origin names s (l : list value) d :
  resolveNames names s = inr l -> d ∈ l ->
  exists t, t ∈ names /\ t <> "*" /\ t <> "-*" /\ d = getFeature t s.
Proof.
  revert l. induction names as [|n names IH]; intros l; simpl.
  - intros H Hd. simplify_eq. by apply elem_of_nil in Hd.
  - destruct (String.eqb_spec n "*") as [->|Hstar]; simpl.
    { intros H Hd. destruct (IH l H Hd) as (t & Ht & ?). exists t.
      split; [by right|done]. }
    destruct (String.eqb_spec n "-*") as [->|Hwild]; simpl.
    { intros H Hd. destruct (IH l H Hd) as (t & Ht & ?). exists t.
      split; [by right|done]. }
    destruct (getFeature n s) eqn:Hget;
      destruct (resolveNames names s) as [msg|l0] eqn:Hrest;
      intros Hl Hd; simplify_eq;
      (apply elem_of_cons in Hd as [->|Hd];
       [exists n; split_and!; [by left|done|done|done]
       |destruct (IH l0 eq_refl Hd) as (t & Ht & ?); exists t;
        split; [by right|done]]).
Qed.

End Enabling.

(** X21.  A load leaves an object explicitly enabled only if it was so
    before or if one of the tokens is a name that does not begin with ["-"],
    is not ["*"], and is the key under which the object is registered. *)
Theorem loadFeaturesFromString_enables_named (text : string) (s : state)
  (a : addr) :
  enabledOf (objects (snd (loadFeaturesFromString text s))) a = Some true ->
  enabledOf (objects s) a = Some true \/
  exists t, t ∈ featureNamesOf text /\ t <> "*" /\
            Js.startsWith "-" t = false /\
            reg_get (featureRegistry s) t = Some a.
Proof.
  rewrite loadFeaturesFromString_directives. simpl.
  rewrite fold_loadOne_writes. simpl.
  unfold enabledOf at 1. rewrite lookup_applyWrites.
  destruct (lastWrite _ a) as [b|] eqn:Hw.
  2:{ intros H. by left. }
  destruct (objects s !! a) eqn:Ha; [|done]. simpl. intros Hb. simplify_eq.
  right. apply lastWrite_elem, elem_of_omap_writeOf in Hw as (d & Hd & Hwd).
  destruct d as [x|n| |]; simpl in Hwd; try done.
  2:{ by destruct (reg_get (featureRegistry s) n). }
  simplify_eq. unfold directivesOf in Hd.
  apply elem_of_app in Hd as [Hd|Hd].
  - destruct (existsb _ _); [|by apply elem_of_nil in Hd].
    unfold topLevelDisabled, asDisabled in Hd.
    change (map ?f ?l) with (f <$> l) in Hd.
    by apply list_elem_of_fmap in Hd as (? & ? & _).
  - destruct (resolveNames (featureNamesOf text) s) as [msg|l] eqn:Hres;
      [by apply elem_of_nil in Hd|].
    destruct (resolveNames_origin _ s l _ Hres Hd) as (t & Ht & Hstar & _ & Hget).
    exists t. split_and!; try done.
    + unfold getFeature, asDisabled in Hget.
      destruct (Js.startsWith "-" t); [|done].
      by destruct (reg_get (featureRegistry s) (Js.slice1 t)).
    + unfold getFeature, asDisabled in Hget.
      destruct (Js.startsWith "-" t).
      * by destruct (reg_get (featureRegistry s) (Js.slice1 t)).
      * destruct (reg_get (featureRegistry s) t); by simplify_eq.
Qed.

Lemma loadFeaturesFromString_enables_named_witness :
  enabledOf (objects declared) 0 = Some true \/
  exists t, t ∈ featureNamesOf "-*, a.b" /\ t <> "*" /\
            Js.startsWith "-" t = false /\
            reg_get (featureRegistry declared) t = Some 0.
Proof.
  apply (loadFeaturesFromString_enables_named "-*, a.b" declared 0).
  reflexivity.
Defined.

(** Witnesses of X4 and X5. *)
Lemma loadFeaturesFromString_returns_iff_witness :
  fst (loadFeaturesFromString "-*, nope" declared) <> Returned.
Proof.
  intros Hret.
  apply (proj1 (loadFeaturesFromString_returns_iff "-*, nope" declared) Hret "nope").
  - apply (bool_decide_unpack _). by vm_compute.
  - by repeat split.
Defined.

Lemma loadFeaturesFromString_frame_witness :
  enabledOf (objects (snd (loadFeaturesFromString "-*, a" redeclared))) 0
  = enabledOf (objects redeclared) 0.
Proof.
  destruct (loadFeaturesFromString_frame "-*, a" redeclared) as (_ & _ & _ & Hframe).
  apply (Hframe 0). apply (bool_decide_unpack _). by vm_compute.
Defined.

(** ** Directives passed over, directives applied *)

Section Applied.

Lemma lastWrite_app ws1 ws2 i :
  lastWrite (ws1 ++ ws2) i =
    match lastWrite ws2 i with
    | Some b => Some b
    | None => lastWrite ws1 i
    end.
Proof.
  induction ws1 as [|w ws1 IH]; simpl.
  - by destruct (lastWrite ws2 i).
  - rewrite IH. by destruct (lastWrite ws2 i).
Qed.

Lemma lastWrite_cons w ws i :
  lastWrite (w :: ws) i =
    match lastWrite ws i with
    | Some b => Some b
    | None => if decide (fst w = i) then Some (snd w) else None
    end.
Proof. reflexivity. Qed.

(** An assignment that no later directive contradicts is the last one. *)
Lemma lastWrite_applied r (l1 l2 : list value) e a b :
  writeOf r e = Some (a, b) ->
  (forall d b', d ∈ l2 -> writeOf r d = Some (a, b') -> b' = b) ->
  lastWrite (omap (writeOf r) (l1 ++ e :: l2)) a = Some b.
Proof.
  intros Hw Hlater. rewrite omap_app, lastWrite_app.
  assert (Hc : omap (writeOf r) (e :: l2) = (a, b) :: omap (writeOf r) l2)
    by (simpl; by rewrite Hw).
  rewrite Hc, lastWrite_cons.
  destruct (lastWrite (omap (writeOf r) l2) a) as [b0|] eqn:Hl.
  - apply lastWrite_elem, elem_of_omap_writeOf in Hl as (d & Hd & Hwd).
    by rewrite (Hlater d b0 Hd Hwd).
  - simpl. by rewrite decide_True.
Qed.

Lemma lastWrite_untouched r (ds : list value) i :
  (forall d b, d ∈ ds -> writeOf r d <> Some (i, b)) ->
  lastWrite (omap (writeOf r) ds) i = None.
Proof.
  intros Hds. destruct (lastWrite _ i) as [b|] eqn:Hl; [|done].
  apply lastWrite_elem, elem_of_omap_writeOf in Hl as (d & Hd & Hwd).
  by destruct (Hds d b Hd).
Qed.

Lemma length_applyWrites ws h : length (applyWrites ws h) = length h.
Proof.
  revert h. induction ws as [|w ws IH]; intros h; [done|].
  unfold applyWrites in *. simpl. by rewrite IH, length_setEnabled.
Qed.

Lemma enabledOf_applyWrites ws h i :
  enabledOf (applyWrites ws h) i =
    match lastWrite ws i with
    | Some b => if decide (i < length h) then Some b else None
    | None => enabledOf h i
    end.
Proof.
  unfold enabledOf. rewrite lookup_applyWrites.
  destruct (lastWrite ws i) as [b|]; [|done].
  destruct (h !! i) as [c|] eqn:Hi; simpl.
  - apply lookup_lt_Some in Hi. by rewrite decide_True.
  - apply lookup_ge_None in Hi. rewrite decide_False; [done|lia].
Qed.

Lemma enabledOf_loadFeatures ds ov s i :
  enabledOf (objects (loadFeatures ds ov s)) i =
    match lastWrite (omap (writeOf (featureRegistry s)) ds) i with
    | Some b => if decide (i < length (objects s)) then Some b else None
    | None =>
        if ov && bool_decide (i ∈ reg_values (featureRegistry s)) then None
        else enabledOf (objects s) i
    end.
Proof.
  unfold enabledOf. rewrite lookup_loadFeatures.
  destruct (lastWrite _ i) as [b|].
  - destruct (objects s !! i) as [c|] eqn:Hi; simpl.
    + apply lookup_lt_Some in Hi. by rewrite decide_True.
    + apply lookup_ge_None in Hi. rewrite decide_False; [done|lia].
  - destruct (ov && bool_decide _); [|done]. by destruct (objects s !! i).
Qed.

End Applied.

(** C10.  A directive that is not a feature object, or a disabled marker
    whose name the registry does not hold, leaves the state as it is at the
    moment it is reached, and the call is the call on the sequence without
    it; nothing is thrown ([loadFeatures] has no [Thrown] outcome) and the
    registry is not touched.  Every other directive of the sequence is
    applied: a feature object ends explicitly enabled unless a later marker
    names it, the object a marker's name is registered for ends explicitly
    disabled unless it is itself a later directive, and an object that no
    directive designates keeps its explicit state (or loses it, when
    [override] is set and it is registered). *)
Theorem loadFeatures_skips (pre post : list value) (d : value)
  (ov : bool) (s : state) :
  skipped (featureRegistry s) d ->
  let s' := loadFeatures (pre ++ d :: post) ov s in
  (forall s0, featureRegistry s0 = featureRegistry s -> loadOne s0 d = s0) /\
  s' = loadFeatures (pre ++ post) ov s /\
  featureRegistry s' = featureRegistry s /\
  (forall l1 a l2,
     pre ++ d :: post = l1 ++ VFeature a :: l2 ->
     a < length (objects s) ->
     (forall n, VMarker n ∈ l2 -> reg_get (featureRegistry s) n <> Some a) ->
     enabledOf (objects s') a = Some true) /\
  (forall l1 n b l2,
     pre ++ d :: post = l1 ++ VMarker n :: l2 ->
     reg_get (featureRegistry s) n = Some b ->
     b < length (objects s) ->
     VFeature b ∉ l2 ->
     enabledOf (objects s') b = Some false) /\
  (forall i,
     VFeature i ∉ pre ++ post ->
     (forall n, VMarker n ∈ pre ++ post ->
                reg_get (featureRegistry s) n <> Some i) ->
     enabledOf (objects s') i =
       if ov && bool_decide (i ∈ reg_values (featureRegistry s)) then None
       else enabledOf (objects s) i).
Proof.
  intros Hd. cbv zeta.
  assert (Hskip : loadFeatures (pre ++ d :: post) ov s
                  = loadFeatures (pre ++ post) ov s).
  { unfold loadFeatures. rewrite !fold_left_app. simpl.
    rewrite loadOne_skipped; [done|].
    rewrite fold_loadOne_registry. by destruct ov. }
  split_and!.
  - intros s0 Hr. apply loadOne_skipped. by rewrite Hr.
  - exact Hskip.
  - apply loadFeatures_registry.
  - intros l1 a l2 Heq Ha Hlater. rewrite enabledOf_loadFeatures, Heq.
    rewrite (lastWrite_applied _ l1 l2 (VFeature a) a true).
    + by rewrite decide_True.
    + done.
    + intros e b' He Hwe. destruct e as [x|n| |]; simpl in Hwe; try done.
      * by simplify_eq.
      * destruct (reg_get (featureRegistry s) n) eqn:Hn; [|done].
        simplify_eq. by destruct (Hlater n He).
  - intros l1 n b l2 Heq Hn Hb Hlater. rewrite enabledOf_loadFeatures, Heq.
    rewrite (lastWrite_applied _ l1 l2 (VMarker n) b false).
    + by rewrite decide_True.
    + simpl. by rewrite Hn.
    + intros e b' He Hwe. destruct e as [x|m| |]; simpl in Hwe; try done.
      * simplify_eq. by destruct Hlater.
      * destruct (reg_get (featureRegistry s) m); by simplify_eq.
  - intros i Hi Hmarkers. rewrite Hskip, enabledOf_loadFeatures.
    rewrite lastWrite_untouched; [done|].
    intros e b He Hwe. destruct e as [x|m| |]; simpl in Hwe; try done.
    + simplify_eq. by destruct Hi.
    + destruct (reg_get (featureRegistry s) m) eqn:Hm; [|done].
      simplify_eq. by destruct (Hmarkers m He).
Qed.

Lemma loadFeatures_skips_witness :
  let s' :=
    loadFeatures [ VFeature 0; VMarker "nope"; VOther; VMarker "a" ] false
      declared in
  s' = loadFeatures [ VFeature 0; VOther; VMarker "a" ] false declared /\
  featureRegistry s' = [ ("a", 1); ("a.b", 0) ] /\
  enabledOf (objects declared) 0 = None /\
  enabledOf (objects declared) 1 = None /\
  enabledOf (objects s') 0 = Some true /\
  enabledOf (objects s') 1 = Some false /\
  s' = State [ Cell "a.b" "b" (Some true); Cell "a" "a" (Some false) ]
             [ ("a", 1); ("a.b", 0) ].
Proof.
  destruct (loadFeatures_skips [ VFeature 0 ] [ VOther; VMarker "a" ]
              (VMarker "nope") false declared)
    as (_ & Heq & Hreg & Hon & Hoff & _).
  { right. exists "nope". split; reflexivity. }
  cbv zeta. split_and!.
  - exact Heq.
  - exact Hreg.
  - reflexivity.
  - reflexivity.
  - apply (Hon [] 0 [ VMarker "nope"; VOther; VMarker "a" ]).
    + reflexivity.
    + simpl. lia.
    + intros n Hn.
      apply elem_of_cons in Hn as [Hn|Hn]; [by simplify_eq|].
      apply elem_of_cons in Hn as [Hn|Hn]; [done|].
      apply list_elem_of_singleton in Hn. by simplify_eq.
  - apply (Hoff [ VFeature 0; VMarker "nope"; VOther ] "a" 1 []).
    + reflexivity.
    + reflexivity.
    + simpl. lia.
    + intros Hin. by apply elem_of_nil in Hin.
  - reflexivity.
Defined.

(** ** Registering again with [override] *)

Section Overriding.

(** Starting from the empty registry, [register] files objects of the
    forest only, each under its qualified name. *)
Lemma register_fresh_entries h forest k b :
  (k, b) ∈ register h forest [] -> k = nameOf h b /\ b ∈ refsOfProps forest.
Proof.
  revert k b.
  apply (register_invariant h
           (fun r => forall k b, (k, b) ∈ r ->
                       k = nameOf h b /\ b ∈ refsOfProps forest)
           (fun a => a ∈ refsOfProps forest) forest).
  - intros a r Ha Hent k b [Heq|Hin]%elem_of_reg_set; [|by apply Hent].
    by simplify_eq.
  - done.
  - intros k b Hin. by apply elem_of_nil in Hin.
Qed.

(** The store after [registerFeatures]: the assignments of the load, when
    there is one, applied to the store as it was. *)
Lemma registerFeatures_objects forest options env s :
  objects (snd (registerFeatures forest options env s)) =
    applyWrites
      (if parsesEnv (parseEnv options)
       then
         let r := register (objects s) forest
                    (if override options then [] else featureRegistry s) in
         omap (writeOf r)
           (directivesOf (envFeatures (parseEnv options) env)
                         (State (objects s) r))
       else [])
      (objects s).
Proof.
  unfold registerFeatures. cbv zeta.
  destruct (parsesEnv (parseEnv options)); [|done].
  rewrite loadFeaturesFromString_directives. simpl.
  by rewrite fold_loadOne_writes.
Qed.

Lemma registerFeatures_length forest options env s :
  length (objects (snd (registerFeatures forest options env s)))
  = length (objects s).
Proof. rewrite registerFeatures_objects. apply length_applyWrites. Qed.

End Overriding.

(** C7 (as amended).  With [override] set, [registerFeatures] starts from
    the emptied registry: the registry it leaves is the one [register]
    builds from nothing, holding objects of the forest only, each under its
    name, whatever was registered before.  It clears no explicit state: an
    object keeps the state it had unless the load of the environment
    assigns one, and the store is not touched at all when the environment
    is not read.  Hence registering again with the same options and
    environment changes nothing; and after any earlier registration of the
    forest, the registration with [override] ends with the same outcome,
    registry and names as without the earlier one, while every explicit
    state the earlier one left, and that the load does not assign, is still
    there. *)
Theorem registerFeatures_override_twice (s : state) (forest : Props)
  (options : Options) (env : Env) :
  override options = true ->
  let once := registerFeatures forest options env s in
  let r := register (objects s) forest [] in
  let ws :=
    if parsesEnv (parseEnv options)
    then omap (writeOf r)
           (directivesOf (envFeatures (parseEnv options) env)
                         (State (objects s) r))
    else [] in
  registerFeatures forest options env (snd once) = once /\
  featureRegistry (snd once) = r /\
  (forall k a, (k, a) ∈ featureRegistry (snd once) ->
     a ∈ refsOfProps forest /\ k = nameOf (objects s) a) /\
  (forall i,
     enabledOf (objects (snd once)) i =
       match lastWrite ws i with
       | Some b => if decide (i < length (objects s)) then Some b else None
       | None => enabledOf (objects s) i
       end) /\
  (parsesEnv (parseEnv options) = false -> objects (snd once) = objects s) /\
  forall (first : Options) (env1 : Env),
    let s1 := snd (registerFeatures forest first env1 s) in
    let twice := registerFeatures forest options env s1 in
    fst twice = fst once /\
    sameNames (snd once) (snd twice) /\
    featureRegistry (snd twice) = r /\
    (forall i,
       enabledOf (objects (snd twice)) i =
         match lastWrite ws i with
         | Some b => if decide (i < length (objects s)) then Some b else None
         | None => enabledOf (objects s1) i
         end) /\
    (parsesEnv (parseEnv options) = false -> objects (snd twice) = objects s1).
Proof.
  intros Hov. cbv zeta.
  destruct (registerFeatures_registry forest options env s) as [Hr Hn].
  rewrite Hov in Hr.
  split_and!.
  - unfold registerFeatures at 1. rewrite Hov.
    rewrite (register_names forest (objects s) _ [] Hn), <- Hr.
    replace (State (objects (snd (registerFeatures forest options env s)))
               (featureRegistry (snd (registerFeatures forest options env s))))
      with (snd (registerFeatures forest options env s))
      by (by destruct (snd (registerFeatures forest options env s))).
    unfold registerFeatures. rewrite Hov.
    destruct (parsesEnv (parseEnv options)); [|done].
    apply loadFeaturesFromString_idempotent.
  - exact Hr.
  - intros k a Hin. rewrite Hr in Hin.
    apply register_fresh_entries in Hin as [-> Ha]. by split.
  - intros i. rewrite registerFeatures_objects, Hov. cbv zeta.
    apply enabledOf_applyWrites.
  - intros Hp. rewrite registerFeatures_objects, Hp. done.
  - intros first env1.
    set (s1 := snd (registerFeatures forest first env1 s)).
    destruct (registerFeatures_registry forest first env1 s) as [_ Hn1].
    fold s1 in Hn1.
    assert (Hlen : length (objects s1) = length (objects s))
      by apply registerFeatures_length.
    assert (Hreg : register (objects s1) forest [] = register (objects s) forest [])
      by (by apply register_names).
    set (r := register (objects s) forest []) in *.
    assert (Hs : sameNames (State (objects s) r) (State (objects s1) r)) by done.
    split_and!.
    + unfold registerFeatures. rewrite Hov, Hreg.
      destruct (parsesEnv (parseEnv options)); [|done].
      rewrite !loadFeaturesFromString_directives. simpl.
      by apply outcomeOf_sameNames.
    + unfold registerFeatures. rewrite Hov, Hreg.
      destruct (parsesEnv (parseEnv options)); [|done].
      rewrite !loadFeaturesFromString_directives. simpl.
      rewrite (directivesOf_sameNames _ _ _ Hs).
      eapply sameNames_trans.
      * split; [symmetry; apply fold_loadOne_sameNames|].
        intros i. symmetry. apply fold_loadOne_sameNames.
      * eapply sameNames_trans; [exact Hs|apply fold_loadOne_sameNames].
    + destruct (registerFeatures_registry forest options env s1) as [Hr1 _].
      by rewrite Hr1, Hov.
    + intros i. rewrite registerFeatures_objects, Hov. cbv zeta.
      rewrite Hreg, (directivesOf_sameNames _ _ _ Hs), enabledOf_applyWrites.
      by rewrite Hlen.
    + intros Hp. rewrite registerFeatures_objects, Hp. done.
Qed.

Lemma registerFeatures_override_twice_witness :
  let forest := [ ("One", Some (Feature 2 [])) ] in
  let once :=
    registerFeatures forest (overriding PEUndefined) envDisablesOne
      declaredThenOne in
  let s1 :=
    snd (registerFeatures forest defaultOptions
           (fun variable =>
              if String.eqb variable "FEATURES" then Some "-a.b" else None)
           declaredThenOne) in
  let twice :=
    registerFeatures forest (overriding PEUndefined) envDisablesOne s1 in
  featureRegistry declaredThenOne = [ ("a", 1); ("a.b", 0) ] /\
  featureRegistry s1 = [ ("a", 1); ("a.b", 0); ("one", 2) ] /\
  registerFeatures forest (overriding PEUndefined) envDisablesOne (snd once)
    = once /\
  featureRegistry (snd once) = [ ("one", 2) ] /\
  enabledOf (objects (snd once)) 0 = None /\
  enabledOf (objects (snd once)) 1 = Some true /\
  enabledOf (objects (snd once)) 2 = Some false /\
  fst twice = Returned /\
  featureRegistry (snd twice) = [ ("one", 2) ] /\
  enabledOf (objects (snd twice)) 0 = Some false /\
  enabledOf (objects (snd twice)) 1 = Some true /\
  enabledOf (objects (snd twice)) 2 = Some false.
Proof.
  cbv zeta.
  destruct (registerFeatures_override_twice declaredThenOne
              [ ("One", Some (Feature 2 [])) ] (overriding PEUndefined)
              envDisablesOne eq_refl)
    as (Hsame & Hr & _ & Hst & _ & Hany).
  destruct (Hany defaultOptions
              (fun variable =>
                 if String.eqb variable "FEATURES" then Some "-a.b" else None))
    as (Hout & _ & Hr2 & Hst2 & _).
  split_and!.
  - reflexivity.
  - reflexivity.
  - exact Hsame.
  - rewrite Hr. reflexivity.
  - rewrite (Hst 0). reflexivity.
  - rewrite (Hst 1). reflexivity.
  - rewrite (Hst 2). reflexivity.
  - rewrite Hout. reflexivity.
  - rewrite Hr2. reflexivity.
  - rewrite (Hst2 0). reflexivity.
  - rewrite (Hst2 1). reflexivity.
  - rewrite (Hst2 2). reflexivity.
Defined.

(** C7, counterexample.  The flag [one] is registered while the environment
    disables it, then registered again with [override] and without reading
    the environment: it stays disabled, where a single registration of that
    kind leaves it enabled. *)
Lemma reregistration_as_stated_fails :
  (let forest := [ ("One", Some oneFlag.1) ] in
   let first := registerFeatures forest (overriding PEUndefined)
                  envDisablesOne oneFlag.2 in
   let twice := registerFeatures forest (overriding (PEBool false))
                  envDisablesOne (snd first) in
   let once := registerFeatures forest (overriding (PEBool false))
                 envDisablesOne oneFlag.2 in
   fst first = Returned /\ fst twice = Returned /\ fst once = Returned /\
   featureRegistry (snd twice) = featureRegistry (snd once) /\
   isFeatureEnabled (snd twice) 0 = false /\
   isFeatureEnabled (snd once) 0 = true) /\
  ~ reregistration_as_stated.
Proof.
  split; [by vm_compute|].
  intros H.
  destruct (H oneFlag.2 [ ("One", Some oneFlag.1) ]
              (overriding PEUndefined) (overriding (PEBool false))
              envDisablesOne eq_refl) as [_ Hstates].
  specialize (Hstates 0). vm_compute in Hstates. discriminate Hstates.
Qed.

(** ** Subfeatures under the key of a method *)

(** X22.  When a freshly defined object is registered alone with
    [override], the registry holds that object and objects below its
    subfeatures whose key is not the name of a method: a subfeature passed
    under [$name], [$enable] and the like is renamed by [defineFeature] but
    is no enumerable child, so [register] does not reach it. *)
Theorem registerFeatures_method_keys (s : state) (feature key : string)
  (subfeatures : Props) (options : Options) (env : Env) :
  override options = true ->
  let o := fst (defineFeature feature subfeatures s) in
  let s1 := snd (defineFeature feature subfeatures s) in
  let s2 := snd (registerFeatures [ (key, Some o) ] options env s1) in
  forall b, b ∈ reg_values (featureRegistry s2) ->
    b = ref_of o \/
    exists k sub, (k, Some sub) ∈ subfeatures /\ (k ∉ methodNames) /\
                  b ∈ refsOf sub.
Proof.
  intros Hov. cbv zeta. intros b Hb.
  apply elem_of_reg_values in Hb as [k Hin].
  destruct (registerFeatures_registry
              [ (key, Some (fst (defineFeature feature subfeatures s))) ]
              options env (snd (defineFeature feature subfeatures s)))
    as [Hr _].
  rewrite Hr, Hov in Hin.
  apply register_fresh_entries in Hin as [_ Hb].
  apply elem_of_refsOfProps in Hb as (k' & sub' & Hsub & Hb).
  apply list_elem_of_singleton in Hsub. simplify_eq.
  change (fst (defineFeature feature subfeatures s))
    with (Feature (length (objects s)) (ownProps subfeatures)) in Hb.
  rewrite refsOf_unfold in Hb.
  apply elem_of_cons in Hb as [->|Hb]; [by left|].
  right. apply elem_of_refsOfProps in Hb as (k0 & sub & Hsub & Hb).
  unfold ownProps in Hsub. apply list_elem_of_filter in Hsub as [Hk Hsub].
  by exists k0, sub.
Qed.

Lemma registerFeatures_method_keys_witness :
  let s2 :=
    snd (registerFeatures [ ("P", Some methodKeyed.1) ]
           (overriding (PEBool false)) noEnv methodKeyed.2) in
  methodKeyed.1 = Feature 1 [] /\
  nameOf (objects s2) 0 = "p.x" /\
  featureRegistry s2 = [ ("p", 1) ] /\
  getFeature "p.x" s2 = VNull /\
  forall b, b ∈ reg_values (featureRegistry s2) -> b = 1.
Proof.
  cbv zeta. split_and!; try reflexivity.
  intros b Hb.
  destruct (registerFeatures_method_keys (snd (defineFeature "x" [] emptyState))
              "p" "P" [ ("$name", Some (Feature 0 [])) ]
              (overriding (PEBool false)) noEnv eq_refl b Hb)
    as [->|(k & sub & Hin & Hk & _)]; [reflexivity|].
  apply list_elem_of_singleton in Hin. simplify_eq.
  destruct Hk. apply (bool_decide_unpack _). by vm_compute.
Defined.
